(** * ConTest test runner: routing blocks, target writer and [TestRunner.Run]

    A shallow embedding of [pkg/runner/test_runner.go] and of the step router
    ([stepRouter.routeIn], [emitOutEvent], [routeOut], [route]) together with
    the properties of the pipeline core that can be read off them.

    Conventions of the embedding.
    - Go strings are byte sequences; they are [string]s here.
    - A Go [error] is [option error]: [None] is [nil].  Errors built with
      [fmt.Errorf] keep their format and operands ([Errorf]); [Error] renders
      the message.
    - A [select] statement is run against a discrete clock: every case has the
      ticks at which it can proceed, the statement blocks until some case can,
      and the runtime picks among the cases that can proceed at that tick.
    - The loops of [routeIn] and [routeOut] are step functions over the
      communication chosen by their [select]; what they do to the outside
      world (events emitted, goroutines started, channels closed, warnings
      logged) is appended to the state.  [Debugf] lines are left out. *)

From Stdlib Require Import ZArith NArith Ascii String.
From stdpp Require Import gmap strings list fin_maps.

(** ** Data model *)

(** [target.Target]: identity is by [ID]. *)
Record Target := mkTarget { ID : string; Name : string; FQDN : string }.

(** [time.Duration] (nanoseconds in Go, clock ticks here) and [time.Time]. *)
Definition Duration := Z.
Definition Time := nat.

(** Operands of the formatting functions, and errors.  [ErrorString m] is an
    error whose [Error()] method returns [m] (errors made by steps, by the
    emitter or by the pipeline); [Errorf] is [fmt.Errorf]. *)
Inductive error :=
| ErrorString (msg : string)
| Errorf (format : string) (args : list fmtArg)
with fmtArg :=
| AString (s : string)
| AInt (n : Z)
| ADuration (d : Duration)
| ATarget (t : Target)
| ATargetError (t : Target) (e : option error)
| AEvent (name : string) (t : Target)
| AError (e : error).

(** [cerrors.TargetError]. *)
Record TargetError := mkTargetError { TE_Target : Target; TE_Err : option error }.

(** [TestRunnerTimeouts]. *)
Record TestRunnerTimeouts := mkTimeouts {
  StepInjectTimeout : Duration;
  MessageTimeout : Duration;
  ShutdownTimeout : Duration;
  StepShutdownTimeout : Duration
}.

(** [test.TestStepBundle]: only the label is used by the runner code here. *)
Record TestStepBundle := mkBundle { TestStepLabel : string }.

(** [injectionResult] and [routeResult]. *)
Record injectionResult := mkInjectionResult {
  ir_target : Target;
  ir_err : option error
}.

Record routeResult := mkRouteResult {
  rr_bundle : TestStepBundle;
  rr_err : option error
}.

(** ** The [select] statement

    The three communications the target writer selects on. *)
Inductive selectCase := CtxDone | ChanSend | TimeAfter.

(** What the rest of the program does while a writer blocks:
    [cancelAt] is the tick at which the context is cancelled (if ever),
    [pick] is the runtime's choice when several cases can proceed. *)
Record Sched := mkSched { cancelAt : option nat; pick : nat -> nat }.

Definition cancelled (c : option nat) (t : nat) : bool :=
  match c with Some k => k <=? t | None => false end.

(** The cases that can proceed at tick [t]; [left] ticks remain before the
    timer of [time.After] fires; [recv t] says whether a send on the channel
    can proceed at tick [t], that is whether a receiver is waiting or the
    buffer has room (on a nil channel it never can). *)
Definition readyCases (c : option nat) (recv : nat -> bool) (left t : nat)
  : list selectCase :=
  (if cancelled c t then [CtxDone] else []) ++
  (if recv t then [ChanSend] else []) ++
  (match left with 0 => [TimeAfter] | S _ => [] end).

(** The runtime's choice among the cases that can proceed. *)
Definition pickReady (pk : nat -> nat) (t : nat) (ready : list selectCase)
  : selectCase :=
  nth (pk t mod length ready) ready TimeAfter.

(** Block until a case can proceed, then take one of those that can. *)
Fixpoint selectWait (c : option nat) (recv : nat -> bool) (pk : nat -> nat)
    (left t : nat) : selectCase * nat :=
  let ready := readyCases c recv left t in
  match ready, left with
  | [], S l => selectWait c recv pk l (S t)
  | _, _ => (pickReady pk t ready, t)
  end.

(** [time.After d] fires at once when [d <= 0]. *)
Definition ticks (d : Duration) : nat := Z.to_nat d.

(** ** targetWriter *)

Record writeResult (A : Type) := mkWriteResult {
  wr_err : option error;   (* the returned error *)
  wr_sent : list A;        (* what was delivered on the channel *)
  wr_end : nat             (* the tick at which the call returns *)
}.
Arguments mkWriteResult {A}.
Arguments wr_err {A}.
Arguments wr_sent {A}.
Arguments wr_end {A}.

Definition writeTimeout (sc : Sched) (ch : nat -> bool) (start : nat)
    (target : Target) (timeout : Duration) : writeResult Target :=
  match selectWait (cancelAt sc) ch (pick sc) (ticks timeout) start with
  | (CtxDone, t) => mkWriteResult None [] t
  | (ChanSend, t) => mkWriteResult None [target] t
  | (TimeAfter, t) =>
      mkWriteResult
        (Some (Errorf "timeout (%v) while writing target %+v"
                 [ADuration timeout; ATarget target])) [] t
  end.

Definition writeTargetError (sc : Sched) (ch : nat -> bool) (start : nat)
    (targetError : TargetError) (timeout : Duration) : writeResult TargetError :=
  match selectWait (cancelAt sc) ch (pick sc) (ticks timeout) start with
  | (CtxDone, t) => mkWriteResult None [] t
  | (ChanSend, t) => mkWriteResult None [targetError] t
  | (TimeAfter, t) =>
      mkWriteResult
        (Some (Errorf "timeout while writing targetError %+v"
                 [ATargetError (TE_Target targetError) (TE_Err targetError)])) [] t
  end.

(** How a call of [writeTargetWithResult] ends. *)
Inductive postOutcome :=
| Posted (r : injectionResult)   (* the record was received on [resultCh] *)
| Dropped                        (* returned on [ctx.Done()], nothing posted *)
| Panicked (format : string) (args : list fmtArg).

Record injectionRun := mkInjectionRun {
  inj_write : writeResult Target;  (* the call of [writeTimeout] on [stepIn] *)
  inj_outcome : postOutcome;
  inj_end : nat
}.

Definition writeTargetWithResult (timeouts : TestRunnerTimeouts) (sc : Sched)
    (stepIn resultCh : nat -> bool) (start : nat) (target : Target)
  : injectionRun :=
  let w := writeTimeout sc stepIn start target (StepInjectTimeout timeouts) in
  match selectWait (cancelAt sc) resultCh (pick sc)
          (ticks (MessageTimeout timeouts)) (wr_end w) with
  | (CtxDone, t) => mkInjectionRun w Dropped t
  | (ChanSend, t) => mkInjectionRun w (Posted (mkInjectionResult target (wr_err w))) t
  | (TimeAfter, t) =>
      mkInjectionRun w
        (Panicked "timeout while writing result for target %+v after %v"
           [ATarget target; ADuration (MessageTimeout timeouts)]) t
  end.

(** ** Formatting and [Error()]

    [fmt.Sprintf] for the verbs this package uses ([%s], [%d], [%v], [%+v]
    and [%%]).  How one operand is printed under a verb belongs to the [fmt]
    package and to the [String] methods of the operand types; it is the
    parameter [fmtOperand] (flag [+], verb, operand). *)
Section Formatting.
Variable fmtOperand : bool -> ascii -> fmtArg -> string.

Definition percent : ascii := ascii_of_nat 37.
Definition plus : ascii := ascii_of_nat 43.

Definition fmtVerb (flag : bool) (v : ascii) (args : list fmtArg) : string :=
  match args with
  | a :: _ => fmtOperand flag v a
  | [] => "%!" +:+ String v "(MISSING)"
  end.

Fixpoint Sprintf (format : string) (args : list fmtArg) : string :=
  match format with
  | EmptyString => EmptyString
  | String c rest =>
      if Ascii.eqb c percent then
        match rest with
        | EmptyString => "%!(NOVERB)"
        | String v rest' =>
            if Ascii.eqb v percent then String percent (Sprintf rest' args)
            else if Ascii.eqb v plus then
              match rest' with
              | EmptyString => "%!(NOVERB)"
              | String v' rest'' =>
                  fmtVerb true v' args +:+ Sprintf rest'' (tail args)
              end
            else fmtVerb false v args +:+ Sprintf rest' (tail args)
        end
      else String c (Sprintf rest args)
  end.

(** The [Error()] method. *)
Definition Error (e : error) : string :=
  match e with
  | ErrorString msg => msg
  | Errorf format args => Sprintf format args
  end.
End Formatting.

(** ** [encoding/json]: strings

    [json.Marshal] writes a string with [encodeState.string(s, escapeHTML)],
    with [escapeHTML = true]; an [Encoder] on which [SetEscapeHTML(false)] was
    called uses [escapeHTML = false] (as [job.Report.ToJSON] does).  The
    function below follows the standard library the package was written
    against: bytes below 0x20 other than newline, carriage return and tab are
    written as [\u00XX]. *)
Definition byteVal (b : ascii) : N := N_of_ascii b.
Definition byte (n : N) : ascii := ascii_of_N n.

Definition hex (n : N) : ascii :=
  nth (N.to_nat n) (list_ascii_of_string "0123456789abcdef") (byte 48).

(** [safeSet] and [htmlSafeSet] of [encoding/json/tables.go]. *)
Definition safeSet (b : ascii) : bool :=
  let n := byteVal b in
  (32 <=? n)%N && (n <? 128)%N && negb (n =? 34)%N && negb (n =? 92)%N.

Definition htmlSafeSet (b : ascii) : bool :=
  let n := byteVal b in
  safeSet b && negb (n =? 38)%N && negb (n =? 60)%N && negb (n =? 62)%N.

(** [utf8.DecodeRuneInString]: the rune at the head of [s] and its width.
    [first] and [acceptRanges] are the tables of [unicode/utf8]. *)
Definition RuneError : N := 65533.

Definition first (b : N) : N :=
  if (b <? 128)%N then 240            (* as *)
  else if (b <? 194)%N then 241       (* xx *)
  else if (b <? 224)%N then 2         (* s1 *)
  else if (b =? 224)%N then 19        (* s2 *)
  else if (b <? 237)%N then 3         (* s3 *)
  else if (b =? 237)%N then 35        (* s4 *)
  else if (b <? 240)%N then 3         (* s3 *)
  else if (b =? 240)%N then 52        (* s5 *)
  else if (b <? 244)%N then 4         (* s6 *)
  else if (b =? 244)%N then 68        (* s7 *)
  else 241.                           (* xx *)

Definition acceptRanges (i : N) : N * N :=
  if (i =? 0)%N then (128, 191)%N
  else if (i =? 1)%N then (160, 191)%N
  else if (i =? 2)%N then (128, 159)%N
  else if (i =? 3)%N then (144, 191)%N
  else if (i =? 4)%N then (128, 143)%N
  else (0, 0)%N.

Definition contByte (b : N) : bool := (128 <=? b)%N && (b <=? 191)%N.

Definition DecodeRuneInString (s : string) : N * nat :=
  match s with
  | EmptyString => (RuneError, 0)
  | String c0 r0 =>
      let s0 := byteVal c0 in
      let x := first s0 in
      if (240 <=? x)%N then
        ((if (x =? 240)%N then s0 else RuneError), 1)
      else
        let sz := N.land x 7 in
        let '(lo, hi) := acceptRanges (N.shiftr x 4) in
        match r0 with
        | EmptyString => (RuneError, 1)
        | String c1 r1 =>
            let s1 := byteVal c1 in
            if (s1 <? lo)%N || (hi <? s1)%N then (RuneError, 1)
            else if (sz <=? 2)%N then
              (N.lor (N.shiftl (N.land s0 31) 6) (N.land s1 63), 2)
            else
              match r1 with
              | EmptyString => (RuneError, 1)
              | String c2 r2 =>
                  let s2 := byteVal c2 in
                  if negb (contByte s2) then (RuneError, 1)
                  else if (sz <=? 3)%N then
                    (N.lor (N.shiftl (N.land s0 15) 12)
                       (N.lor (N.shiftl (N.land s1 63) 6) (N.land s2 63)), 3)
                  else
                    match r2 with
                    | EmptyString => (RuneError, 1)
                    | String c3 _ =>
                        let s3 := byteVal c3 in
                        if negb (contByte s3) then (RuneError, 1)
                        else
                          (N.lor (N.shiftl (N.land s0 7) 18)
                             (N.lor (N.shiftl (N.land s1 63) 12)
                                (N.lor (N.shiftl (N.land s2 63) 6)
                                   (N.land s3 63))), 4)
                    end
              end
        end
  end.

Definition backslash : ascii := byte 92.
Definition quote : ascii := byte 34.

(** The escape written for an ASCII byte that is not copied as it is. *)
Definition escapeByte (b : ascii) : string :=
  let n := byteVal b in
  String backslash
    (if (n =? 92)%N || (n =? 34)%N then String b EmptyString
     else if (n =? 10)%N then "n"
     else if (n =? 13)%N then "r"
     else if (n =? 9)%N then "t"
     else "u00" +:+ String (hex (N.shiftr n 4))
                      (String (hex (N.land n 15)) EmptyString)).

(** The loop of [encodeState.string].  [skip] counts the bytes of the rune
    decoded last that are still ahead; they are copied ([keep]) or were
    replaced by an escape. *)
Fixpoint encodeRunes (escapeHTML keep : bool) (skip : nat) (s : string) : string :=
  match s with
  | EmptyString => EmptyString
  | String b rest =>
      match skip with
      | S k =>
          if keep then String b (encodeRunes escapeHTML keep k rest)
          else encodeRunes escapeHTML keep k rest
      | 0 =>
          if (byteVal b <? 128)%N then
            if htmlSafeSet b || (negb escapeHTML && safeSet b)
            then String b (encodeRunes escapeHTML true 0 rest)
            else escapeByte b +:+ encodeRunes escapeHTML true 0 rest
          else
            let '(c, size) := DecodeRuneInString s in
            if (c =? RuneError)%N && (size =? 1)%nat
            then "\ufffd" +:+ encodeRunes escapeHTML true 0 rest
            else if (c =? 8232)%N || (c =? 8233)%N
            then "\u202" +:+ String (hex (N.land c 15))
                   (encodeRunes escapeHTML false (size - 1) rest)
            else String b (encodeRunes escapeHTML true (size - 1) rest)
      end
  end.

Definition encodeString (escapeHTML : bool) (s : string) : string :=
  String quote (encodeRunes escapeHTML true 0 s +:+ String quote EmptyString).

(** Modelled from the spec: [target.ErrPayload], the payload of a [TargetErr]
    event, is declared in [pkg/target]; it is a struct with the one string
    field [Error]. *)
Record ErrPayload := mkErrPayload { ErrPayload_Error : string }.

(** The JSON object of an [ErrPayload]. *)
Definition encodeErrPayload (escapeHTML : bool) (p : ErrPayload) : string :=
  "{" +:+ String quote "Error" +:+ String quote ":" +:+
  encodeString escapeHTML (ErrPayload_Error p) +:+ "}".

(** [json.Marshal]: HTML escaping is on. *)
Definition jsonMarshal (p : ErrPayload) : string := encodeErrPayload true p.

(** ** Events *)

(** [testevent.Data]. *)
Record EventData := mkEventData {
  EventName : string;
  ED_Target : Target;
  Payload : option string
}.

(** Modelled from the spec: the four event names of [pkg/target]. *)
Definition EventTargetIn : string := "TargetIn".
Definition EventTargetInErr : string := "TargetInErr".
Definition EventTargetOut : string := "TargetOut".
Definition EventTargetErr : string := "TargetErr".

(** The emitter ([testevent.EmitterFetcher]) as the routing block sees it at
    one call: the error [Emit] returns for the event handed over. *)
Definition Emitter := EventData -> option error.

(** What a routing block does to the outside world. *)
Inductive action :=
| AEmit (ev : EventData)              (* [r.ev.Emit(ctx, ev)] *)
| ARecvRouteIn (t : Target)           (* a target taken from [routeIn] *)
| AInject (t : Target)                (* [go writeTargetWithResult(.., t, ..)] *)
| ACloseStepIn                        (* [close(stepIn)] *)
| ASendRouteOut (t : Target)          (* [t] delivered on [routeOut] *)
| ASendTargetErr (te : TargetError)   (* delivered on [targetErr] *)
| ACloseRouteOut.                     (* [close(routeOut)] *)

Inductive logEntry :=
| Warnf (format : string) (args : list fmtArg).

Section Router.
Variable fmtOperand : bool -> ascii -> fmtArg -> string.

(** [stepRouter.emitOutEvent]: the event handed to the emitter, the
    warnings logged and the returned error. *)
Definition emitOutEvent (emit : Emitter) (t : Target) (err : option error)
  : EventData * list logEntry * option error :=
  match err with
  | Some e =>
      let targetErrPayload := mkErrPayload (Error fmtOperand e) in
      (* [json.Marshal] cannot fail on a struct with one string field *)
      let rawPayload := jsonMarshal targetErrPayload in
      let targetErrEv := mkEventData EventTargetErr t (Some rawPayload) in
      match emit targetErrEv with
      | Some e' => (targetErrEv, [], Some e')
      | None => (targetErrEv, [], None)
      end
  | None =>
      let targetOutEv := mkEventData EventTargetOut t None in
      match emit targetOutEv with
      | Some _ =>
          (targetOutEv,
           [Warnf "could not emit %v event for target: %v"
              [AEvent EventTargetOut t; ATarget t]], None)
      | None => (targetOutEv, [], None)
      end
  end.

(** *** routeIn *)

(** The variables of [routeIn] that outlive one iteration, the injection
    goroutines that have not handed back their result yet ([in_running]),
    and the effects so far. *)
Record routeInState := mkRouteInState {
  in_routeIn_open : bool;               (* [r.routingChannels.routeIn != nil] *)
  in_targets : list Target;             (* [targets], front of the list first *)
  in_ingressTarget : gmap string Time;  (* [ingressTarget] *)
  in_routeInProgress : bool;            (* [routeInProgress] *)
  in_err : option error;                (* [err] *)
  in_running : list Target;
  in_trace : list action;
  in_log : list logEntry
}.

Definition routeIn_init : routeInState :=
  mkRouteInState true [] ∅ false None [] [] [].

(** The communication taken by the [select] of one iteration. *)
Inductive routeInEvent :=
| InCancel                                 (* [<-ctx.WaitFor()] *)
| InResult (k : nat) (ierr : option error) (emit : Emitter)
    (* goroutine [k] of [in_running] posts [injectionResult{target, ierr}] *)
| InRecv (t : option Target).              (* [<-routeIn]; [None]: closed *)

(** A case is taken only if it can proceed: a result needs a goroutine
    that posts it, a nil channel never delivers. *)
Definition routeIn_enabled (s : routeInState) (e : routeInEvent) : bool :=
  match e with
  | InCancel => true
  | InResult k _ _ => bool_decide (is_Some (in_running s !! k))
  | InRecv _ => in_routeIn_open s
  end.

Definition in_emit (emit : Emitter) (ev : EventData) (w : logEntry)
    (s : routeInState) : routeInState :=
  mkRouteInState (in_routeIn_open s) (in_targets s) (in_ingressTarget s)
    (in_routeInProgress s) (in_err s) (in_running s)
    (in_trace s ++ [AEmit ev])
    (in_log s ++ match emit ev with Some _ => [w] | None => [] end).

Definition in_set_err (e : error) (s : routeInState) : routeInState :=
  mkRouteInState (in_routeIn_open s) (in_targets s) (in_ingressTarget s)
    (in_routeInProgress s) (Some e) (in_running s) (in_trace s) (in_log s).

(** The body of the [select] statement. *)
Definition routeIn_select (stepLabel : string) (s : routeInState)
    (e : routeInEvent) : routeInState :=
  match e with
  | InCancel =>
      in_set_err (Errorf "termination requested for routing into %s"
                    [AString stepLabel]) s
  | InResult k ierr emit =>
      match in_running s !! k with
      | None => s
      | Some t =>
          let s1 :=
            mkRouteInState (in_routeIn_open s) (in_targets s)
              (in_ingressTarget s) false (in_err s)
              (delete k (in_running s)) (in_trace s) (in_log s) in
          match ierr with
          | Some _ =>
              let targetInErrEv := mkEventData EventTargetInErr t None in
              in_emit emit targetInErrEv
                (Warnf "could not emit %v event for target %+v: %v"
                   (AEvent EventTargetInErr t :: ATarget t ::
                    match emit targetInErrEv with
                    | Some e' => [AError e'] | None => [] end))
                (in_set_err
                   (Errorf "routing failed while injecting target %+v into %s"
                      [ATarget t; AString stepLabel]) s1)
          | None =>
              let targetInEv := mkEventData EventTargetIn t None in
              in_emit emit targetInEv
                (Warnf "could not emit %v event for Target: %+v"
                   [AEvent EventTargetIn t; ATarget t]) s1
          end
      end
  | InRecv None =>
      mkRouteInState false (in_targets s) (in_ingressTarget s)
        (in_routeInProgress s) (in_err s) (in_running s) (in_trace s)
        (in_log s)
  | InRecv (Some t) =>
      (* [targets.PushFront(t)] *)
      mkRouteInState (in_routeIn_open s) (t :: in_targets s)
        (in_ingressTarget s) (in_routeInProgress s) (in_err s)
        (in_running s) (in_trace s ++ [ARecvRouteIn t]) (in_log s)
  end.

(** The rest of the loop body, after the [select] statement; the boolean
    tells whether the loop goes on ([continue]) or is left ([break]). *)
Definition routeIn_inject (now : Time) (s1 : routeInState)
  : routeInState * bool :=
  match in_err s1 with
  | Some _ => (s1, false)
  | None =>
      if in_routeInProgress s1 then (s1, true)
      else
        match last (in_targets s1) with
        | None =>
            (* [targets.Len() == 0] *)
            if in_routeIn_open s1 then (s1, true)
            else
              (mkRouteInState false (in_targets s1) (in_ingressTarget s1)
                 (in_routeInProgress s1) (in_err s1) (in_running s1)
                 (in_trace s1 ++ [ACloseStepIn]) (in_log s1), false)
        | Some t =>
            (* [targets.Back()], [targets.Remove(targets.Back())] *)
            (mkRouteInState (in_routeIn_open s1) (removelast (in_targets s1))
               (<[ID t := now]> (in_ingressTarget s1)) true (in_err s1)
               (in_running s1 ++ [t]) (in_trace s1 ++ [AInject t])
               (in_log s1), true)
        end
  end.

(** One iteration of the loop at time [now]. *)
Definition routeIn_iter (stepLabel : string) (now : Time) (s : routeInState)
    (e : routeInEvent) : routeInState * bool :=
  routeIn_inject now (routeIn_select stepLabel s e).

(** The loop, run against the communications offered in turn; the boolean
    of the result tells whether the loop was left. *)
Fixpoint routeIn_loop (stepLabel : string) (s : routeInState)
    (evs : list (Time * routeInEvent)) : routeInState * bool :=
  match evs with
  | [] => (s, false)
  | (now, e) :: evs' =>
      if routeIn_enabled s e then
        let '(s', continue) := routeIn_iter stepLabel now s e in
        if continue then routeIn_loop stepLabel s' evs' else (s', true)
      else routeIn_loop stepLabel s evs'
  end.

(** What [routeIn] returns once the loop is left (the goroutine still
    running, if any, is cancelled and waited for). *)
Definition routeIn_return (s : routeInState) : nat * option error :=
  match in_err s with
  | Some e => (0, Some e)
  | None => (size (in_ingressTarget s), None)
  end.

Definition routeIn (stepLabel : string) (evs : list (Time * routeInEvent))
  : option (nat * option error) :=
  let '(s, exited) := routeIn_loop stepLabel routeIn_init evs in
  if exited then Some (routeIn_return s) else None.

(** *** routeOut *)

(** How the forwarding write of one iteration meets the rest of the
    program: the scheduler, when the receiving side can take the value,
    and the tick at which the write starts. *)
Record writeEnv := mkWriteEnv {
  we_sched : Sched;
  we_chan : nat -> bool;
  we_start : nat
}.

Record routeOutState := mkRouteOutState {
  out_stepOut_open : bool;              (* [r.routingChannels.stepOut != nil] *)
  out_stepErr_open : bool;              (* [r.routingChannels.stepErr != nil] *)
  out_egressTarget : gmap string Time;  (* [egressTarget] *)
  out_err : option error;               (* [err] *)
  out_trace : list action;
  out_log : list logEntry;
  out_panic : option (string * list fmtArg)  (* the process was aborted *)
}.

Definition routeOut_init : routeOutState :=
  mkRouteOutState true true ∅ None [] [] None.

Inductive routeOutEvent :=
| OutCancel                                           (* [<-ctx.WaitFor()] *)
| OutStepOut (t : option Target) (emit : Emitter) (w : writeEnv)
| OutStepErr (te : option TargetError) (emit : Emitter) (w : writeEnv).

Definition routeOut_enabled (s : routeOutState) (e : routeOutEvent) : bool :=
  match e with
  | OutCancel => true
  | OutStepOut _ _ _ => out_stepOut_open s
  | OutStepErr _ _ _ => out_stepErr_open s
  end.

Definition out_set_err (e : error) (s : routeOutState) : routeOutState :=
  mkRouteOutState (out_stepOut_open s) (out_stepErr_open s)
    (out_egressTarget s) (Some e) (out_trace s) (out_log s) (out_panic s).

(** A target leaves the step: the event is emitted, the egress time is
    registered and the value is forwarded; a forwarding error aborts the
    process. *)
Definition out_forward {A : Type} (now : Time) (t : Target)
    (emitted : EventData * list logEntry * option error)
    (w : error -> logEntry) (wr : writeResult A) (sent : A -> action)
    (panicFormat : string) (panicArgs : error -> list fmtArg)
    (s : routeOutState) : routeOutState :=
  let '(ev, logs, ret) := emitted in
  mkRouteOutState (out_stepOut_open s) (out_stepErr_open s)
    (<[ID t := now]> (out_egressTarget s)) (out_err s)
    (out_trace s ++ [AEmit ev] ++ map sent (wr_sent wr))
    (out_log s ++ logs ++ match ret with Some e => [w e] | None => [] end)
    (match wr_err wr with
     | Some e => Some (panicFormat, panicArgs e)
     | None => out_panic s
     end).

(** The body of the [select] statement. *)
Definition routeOut_select (stepLabel : string) (timeouts : TestRunnerTimeouts)
    (now : Time) (s : routeOutState) (e : routeOutEvent) : routeOutState :=
  match e with
  | OutCancel =>
      out_set_err (Errorf "termination requested for routing into %s"
                     [AString stepLabel]) s
  | OutStepOut None _ _ =>
      mkRouteOutState false (out_stepErr_open s) (out_egressTarget s)
        (out_err s) (out_trace s) (out_log s) (out_panic s)
  | OutStepOut (Some t) emit w =>
      match out_egressTarget s !! ID t with
      | Some _ =>
          out_set_err (Errorf "step %s returned target %+v multiple times"
                         [AString stepLabel; ATarget t]) s
      | None =>
          out_forward now t (emitOutEvent emit t None)
            (fun e => Warnf "could not emit out event for target %v: %v"
                        [ATarget t; AError e])
            (writeTimeout (we_sched w) (we_chan w) (we_start w) t
               (MessageTimeout timeouts))
            ASendRouteOut
            "could not forward target to the test runner: %+v"
            (fun e => [AError e]) s
      end
  | OutStepErr None _ _ =>
      mkRouteOutState (out_stepOut_open s) false (out_egressTarget s)
        (out_err s) (out_trace s) (out_log s) (out_panic s)
  | OutStepErr (Some targetError) emit w =>
      let t := TE_Target targetError in
      match out_egressTarget s !! ID t with
      | Some _ =>
          out_set_err (Errorf "step %s returned target %+v multiple times"
                         [AString stepLabel; ATarget t]) s
      | None =>
          out_forward now t (emitOutEvent emit t (TE_Err targetError))
            (fun _ => Warnf "could not emit err event for target: %v"
                        [ATarget t])
            (writeTargetError (we_sched w) (we_chan w) (we_start w)
               targetError (MessageTimeout timeouts))
            ASendTargetErr
            "could not forward target (%+v) to the test runner: %v"
            (fun e => [ATarget t; AError e]) s
      end
  end.

(** How an iteration ends. *)
Inductive loopCtl := Continue | Break | Crash.

(** The rest of the loop body, after the [select] statement. *)
Definition routeOut_finish (s1 : routeOutState) : routeOutState * loopCtl :=
  match out_panic s1 with
  | Some _ => (s1, Crash)
  | None =>
      match out_err s1 with
      | Some _ => (s1, Break)
      | None =>
          if negb (out_stepErr_open s1) && negb (out_stepOut_open s1) then
            (mkRouteOutState (out_stepOut_open s1) (out_stepErr_open s1)
               (out_egressTarget s1) (out_err s1)
               (out_trace s1 ++ [ACloseRouteOut]) (out_log s1)
               (out_panic s1), Break)
          else (s1, Continue)
      end
  end.

(** One iteration of the loop at time [now]. *)
Definition routeOut_iter (stepLabel : string) (timeouts : TestRunnerTimeouts)
    (now : Time) (s : routeOutState) (e : routeOutEvent)
  : routeOutState * loopCtl :=
  routeOut_finish (routeOut_select stepLabel timeouts now s e).

Fixpoint routeOut_loop (stepLabel : string) (timeouts : TestRunnerTimeouts)
    (s : routeOutState) (evs : list (Time * routeOutEvent))
  : routeOutState * loopCtl :=
  match evs with
  | [] => (s, Continue)
  | (now, e) :: evs' =>
      if routeOut_enabled s e then
        match routeOut_iter stepLabel timeouts now s e with
        | (s', Continue) => routeOut_loop stepLabel timeouts s' evs'
        | r => r
        end
      else routeOut_loop stepLabel timeouts s evs'
  end.

Definition routeOut_return (s : routeOutState) : nat * option error :=
  match out_err s with
  | Some e => (0, Some e)
  | None => (size (out_egressTarget s), None)
  end.

(** [None]: the loop was not left (or the process was aborted). *)
Definition routeOut (stepLabel : string) (timeouts : TestRunnerTimeouts)
    (evs : list (Time * routeOutEvent)) : option (nat * option error) :=
  match routeOut_loop stepLabel timeouts routeOut_init evs with
  | (s, Break) => Some (routeOut_return s)
  | _ => None
  end.

(** *** route *)

(** The routing error computed once both activities have returned. *)
Definition routingErr (stepLabel : string) (rin rout : nat * option error)
  : option error :=
  let '(inTargets, errRouteIn) := rin in
  let '(outTargets, errRouteOut) := rout in
  let routingErr := errRouteIn in
  let routingErr :=
    match routingErr with None => errRouteOut | Some _ => routingErr end in
  match routingErr with
  | None =>
      if bool_decide (inTargets ≠ outTargets) then
        Some (Errorf
                "step %s completed but did not return all injected Targets (%d!=%d)"
                [AString stepLabel; AInt (Z.of_nat inTargets);
                 AInt (Z.of_nat outTargets)])
      else routingErr
  | Some _ => routingErr
  end.

Inductive routeOutcome :=
| Delivered (r : routeResult)    (* received by the pipeline on [resultCh] *)
| RoutePanicked (format : string).

(** [stepRouter.route]: both activities run on their own schedule; when
    both have returned the result is sent to the pipeline, which has to
    take it within the message timeout.  The last [select] has no
    [ctx.Done()] case.  [None]: [wg.Wait()] does not return. *)
Definition route (bundle : TestStepBundle) (timeouts : TestRunnerTimeouts)
    (evsIn : list (Time * routeInEvent)) (evsOut : list (Time * routeOutEvent))
    (resultCh : nat -> bool) (pk : nat -> nat) (start : nat)
  : option routeOutcome :=
  match routeIn (TestStepLabel bundle) evsIn,
        routeOut (TestStepLabel bundle) timeouts evsOut with
  | Some rin, Some rout =>
      let err := routingErr (TestStepLabel bundle) rin rout in
      match selectWait None resultCh pk (ticks (MessageTimeout timeouts)) start with
      | (TimeAfter, _) => Some (RoutePanicked "could not send routing block result")
      | _ => Some (Delivered (mkRouteResult bundle err))
      end
  | _, _ => None
  end.
End Router.

(** ** TestRunner.Run *)

(** What arrives at the loop of [Run]: the value [testPipeline.run] returned,
    on [errCh], or a target on [completedTargets]. *)
Inductive runEvent :=
| RunErrCh (err : option error)
| RunCompleted (t : Target).

(** The steps [Run] takes before it waits. *)
Inductive runAction :=
| ANewPipeline (bundles : list TestStepBundle)   (* [newPipeline(..)] *)
| AInitPipeline                                  (* [testPipeline.init(ctx)] *)
| AGoInject (targets : list Target)              (* the injection goroutine *)
| AGoRunPipeline.                                (* [go testPipeline.run(..)] *)

(** The final loop; [None]: nothing arrives on [errCh], [Run] does not
    return. *)
Fixpoint Run_loop (evs : list runEvent) : option (option error) :=
  match evs with
  | [] => None
  | RunErrCh err :: _ => Some err
  | RunCompleted _ :: evs' => Run_loop evs'
  end.

Definition Run (bundles : list TestStepBundle) (targets : list Target)
    (evs : list runEvent) : list runAction * option (option error) :=
  if (length bundles =? 0)%nat then
    ([], Some (Some (Errorf "no steps to run for test" [])))
  else
    ([ANewPipeline bundles; AInitPipeline; AGoInject targets; AGoRunPipeline],
     Run_loop evs).

(** The injection goroutine of [Run]: every target is written to the input
    channel of the pipeline with the message timeout, one after the other; a
    write that fails is logged and the next target is tried; the channel is
    closed at the end.  The result holds the targets delivered, the targets
    whose write failed with the error, and the tick at which the channel is
    closed. *)
Fixpoint injectTargets (timeouts : TestRunnerTimeouts) (sc : Sched)
    (inputChannel : nat -> bool) (start : nat) (targets : list Target)
  : list Target * list (Target * error) * nat :=
  match targets with
  | [] => ([], [], start)
  | t :: targets' =>
      let w := writeTimeout sc inputChannel start t (MessageTimeout timeouts) in
      let '(delivered, failed, finish) :=
        injectTargets timeouts sc inputChannel (wr_end w) targets' in
      (wr_sent w ++ delivered,
       match wr_err w with Some e => [(t, e)] | None => [] end ++ failed,
       finish)
  end.

(** ** State *)

(** [State]: the three maps of the accounting record.  A key of
    [completedTargets] is a [*target.Target], that is an address. *)
Record State := mkState {
  completedSteps : gmap string (option error);
  completedRouting : gmap string (option error);
  completedTargets : gmap positive (option error)
}.

Definition NewState : State := mkState ∅ ∅ ∅.

Definition CompletedTargets (r : State) : gmap positive (option error) :=
  completedTargets r.

Definition CompletedRouting (r : State) : gmap string (option error) :=
  completedRouting r.

Definition CompletedSteps (r : State) : gmap string (option error) :=
  completedSteps r.

Definition SetRouting (testStepLabel : string) (err : option error) (r : State)
  : State :=
  mkState (completedSteps r) (<[testStepLabel := err]> (completedRouting r))
    (completedTargets r).

Definition SetTarget (target : positive) (err : option error) (r : State)
  : State :=
  mkState (completedSteps r) (completedRouting r)
    (<[target := err]> (completedTargets r)).

Definition SetStep (testStepLabel : string) (err : option error) (r : State)
  : State :=
  mkState (<[testStepLabel := err]> (completedSteps r)) (completedRouting r)
    (completedTargets r).

(** [IncompleteSteps]: the loop appends to [incompleteSteps] the label of
    every bundle that has no entry in [completedSteps]. *)
Definition IncompleteSteps (r : State) (bundles : list TestStepBundle)
  : list string :=
  foldl (fun incompleteSteps bundle =>
           match completedSteps r !! TestStepLabel bundle with
           | None => incompleteSteps ++ [TestStepLabel bundle]
           | Some _ => incompleteSteps
           end) [] bundles.

(** ** Job reports in the relational storage

    [StoreJobReport] and [GetJobReport] of the RDBMS storage plugin.  The
    database is its two tables, rows in the order of insertion; the answers
    of the database (an error of [init], of [Exec], of [Query], of
    [rows.Err()] or of [rows.Scan]) are inputs.  [report.Data] is an
    [interface{}]: its type and the two functions of [encoding/json] that
    convert it are parameters. *)
Section JobReports.
Variable ReportData : Type.
(** [Encoder.Encode] with the given [escapeHTML] flag: the bytes written
    and the error. *)
Variable jsonEncode : bool -> ReportData -> string * option error.
(** [json.Unmarshal] into an [interface{}]. *)
Variable jsonUnmarshal : string -> ReportData + error.

(** [job.Report] and [job.JobReport]. *)
Record Report := mkReport {
  Success : bool;
  ReportTime : Time;
  Data : ReportData
}.

Record JobReport := mkJobReport {
  JobID : N;
  RunReports : list (list Report);
  FinalReports : list Report
}.

(** [Report.ToJSON]: marshals [Data] with HTML escaping disabled. *)
Definition ToJSON (r : Report) : string * option error :=
  jsonEncode false (Data r).

(** The tables [run_reports] and [final_reports]. *)
Record runRow := mkRunRow {
  row_job_id : N;
  row_run_number : N;
  row_success : bool;
  row_report_time : Time;
  row_data : string
}.

Record finalRow := mkFinalRow {
  frow_job_id : N;
  frow_success : bool;
  frow_report_time : Time;
  frow_data : string
}.

Record database := mkDatabase {
  run_reports : list runRow;
  final_reports : list finalRow
}.

(** The reports of run [runID]; [n] counts the statements executed so far,
    [exec n] is the answer of the database to statement [n]. *)
Fixpoint storeRun (exec : nat -> option error) (jobID : N) (runID : nat)
    (runReports : list Report) (db : database) (n : nat)
  : database * nat * option error :=
  match runReports with
  | [] => (db, n, None)
  | report :: rest =>
      match ToJSON report with
      | (_, Some err) =>
          (db, n,
           Some (Errorf "could not serialize run report for job %v: %v"
                   [AInt (Z.of_N jobID); AError err]))
      | (reportJSON, None) =>
          match exec n with
          | Some err =>
              (db, S n,
               Some (Errorf "could not store run report for job %v: %v"
                       [AInt (Z.of_N jobID); AError err]))
          | None =>
              (* the run number is the run ID plus one *)
              storeRun exec jobID runID rest
                (mkDatabase
                   (run_reports db ++
                    [mkRunRow jobID (N.of_nat (runID + 1)) (Success report)
                       (ReportTime report) reportJSON])
                   (final_reports db)) (S n)
          end
      end
  end.

Fixpoint storeRuns (exec : nat -> option error) (jobID : N) (runID : nat)
    (runs : list (list Report)) (db : database) (n : nat)
  : database * nat * option error :=
  match runs with
  | [] => (db, n, None)
  | runReports :: rest =>
      match storeRun exec jobID runID runReports db n with
      | (db', n', None) => storeRuns exec jobID (S runID) rest db' n'
      | r => r
      end
  end.

Fixpoint storeFinals (exec : nat -> option error) (jobID : N)
    (reports : list Report) (db : database) (n : nat)
  : database * nat * option error :=
  match reports with
  | [] => (db, n, None)
  | report :: rest =>
      match ToJSON report with
      | (_, Some err) =>
          (db, n,
           Some (Errorf "could not serialize final report for job %v: %v"
                   [AInt (Z.of_N jobID); AError err]))
      | (reportJSON, None) =>
          match exec n with
          | Some err =>
              (db, S n,
               Some (Errorf "could not store final report for job %v: %v"
                       [AInt (Z.of_N jobID); AError err]))
          | None =>
              storeFinals exec jobID rest
                (mkDatabase (run_reports db)
                   (final_reports db ++
                    [mkFinalRow jobID (Success report) (ReportTime report)
                       reportJSON])) (S n)
          end
      end
  end.

(** [StoreJobReport]: the database afterwards and the returned error. *)
Definition StoreJobReport (initErr : option error) (exec : nat -> option error)
    (db : database) (jobReport : JobReport) : database * option error :=
  match initErr with
  | Some err =>
      (db, Some (Errorf "could not initialize database: %v" [AError err]))
  | None =>
      match storeRuns exec (JobID jobReport) 0 (RunReports jobReport) db 0 with
      | (db', n, None) =>
          let '(db'', _, err) :=
            storeFinals exec (JobID jobReport) (FinalReports jobReport) db' n in
          (db'', err)
      | (db', _, Some err) => (db', Some err)
      end
  end.

(** What one turn of [rows.Next()] brings: an error of [rows.Err()], an
    error of [rows.Scan], or the scanned columns. *)
Inductive rowRead (A : Type) :=
| RowsErr (err : error)
| ScanErr (err : error)
| Scanned (a : A).
Arguments RowsErr {A}.
Arguments ScanErr {A}.
Arguments Scanned {A}.

(** The columns [success, report_time, run_number, data]. *)
Record scannedRun := mkScannedRun {
  sr_success : bool;
  sr_report_time : Time;
  sr_run_number : N;
  sr_data : string
}.

(** The columns [success, report_time, data]. *)
Record scannedFinal := mkScannedFinal {
  sf_success : bool;
  sf_report_time : Time;
  sf_data : string
}.

(** The variables of the first loop of [GetJobReport]. *)
Record runLoop := mkRunLoop {
  runReports : list (list Report);
  currentRunReports : list Report;
  lastRunNum : N
}.

(** [lastRunNum+1] on a [uint]. *)
Definition uintSucc (n : N) : N := ((n + 1) mod 2 ^ 64)%N.

(** The body of the first loop. *)
Definition getRunRow (jobID : N) (st : runLoop) (row : rowRead scannedRun)
  : runLoop + error :=
  match row with
  | RowsErr err =>
      inr (Errorf "could not fetch run report for job %d: %v"
             [AInt (Z.of_N jobID); AError err])
  | ScanErr err =>
      inr (Errorf "failed to scan row while fetching run report for job %d: %v"
             [AInt (Z.of_N jobID); AError err])
  | Scanned sr =>
      match jsonUnmarshal (sr_data sr) with
      | inr err =>
          inr (Errorf "failed to unmarshal run report JSON data: %v"
                 [AError err])
      | inl data =>
          let report := mkReport (sr_success sr) (sr_report_time sr) data in
          let currentRunNum := sr_run_number sr in
          if (currentRunNum =? 0)%N then
            inr (ErrorString "invalid run_number in database, cannot be zero")
          else if (currentRunNum <? lastRunNum st)%N
                  || (uintSucc (lastRunNum st) <? currentRunNum)%N then
            inr (Errorf
                   "invalid run_number retrieved from database: either it is not ordered, or there is a gap in run numbers in the database for job %d. Current run number: %d, last run number: %d"
                   [AInt (Z.of_N jobID); AInt (Z.of_N currentRunNum);
                    AInt (Z.of_N (lastRunNum st))])
          else if negb (currentRunNum =? lastRunNum st)%N then
            (* this is the next run number *)
            if (0 <? lastRunNum st)%N then
              inl (mkRunLoop (runReports st ++ [currentRunReports st])
                     [report] currentRunNum)
            else
              inl (mkRunLoop (runReports st)
                     (currentRunReports st ++ [report]) currentRunNum)
          else
            inl (mkRunLoop (runReports st) (currentRunReports st ++ [report])
                   (lastRunNum st))
      end
  end.

Fixpoint getRunRows (jobID : N) (st : runLoop) (rows : list (rowRead scannedRun))
  : runLoop + error :=
  match rows with
  | [] => inl st
  | row :: rest =>
      match getRunRow jobID st row with
      | inl st' => getRunRows jobID st' rest
      | inr err => inr err
      end
  end.

(** After the first loop: the reports of the last run are appended. *)
Definition lastRun (st : runLoop) : list (list Report) :=
  if (0 <? length (currentRunReports st))%nat
  then runReports st ++ [currentRunReports st]
  else runReports st.

(** The second loop. *)
Fixpoint getFinalRows (jobID : N) (finalReports : list Report)
    (rows : list (rowRead scannedFinal)) : list Report + error :=
  match rows with
  | [] => inl finalReports
  | RowsErr err :: _ =>
      inr (Errorf "could not fetch final report for job %d: %v"
             [AInt (Z.of_N jobID); AError err])
  | ScanErr err :: _ =>
      inr (Errorf "failed to scan row while fetching final report for job %d: %v"
             [AInt (Z.of_N jobID); AError err])
  | Scanned sf :: rest =>
      match jsonUnmarshal (sf_data sf) with
      | inr err =>
          inr (Errorf "failed to unmarshal final report JSON data: %v"
                 [AError err])
      | inl data =>
          getFinalRows jobID
            (finalReports ++ [mkReport (sf_success sf) (sf_report_time sf) data])
            rest
      end
  end.

(** [GetJobReport]; [runQuery] and [finalQuery] are the answers of the
    database to the two queries: an error, or the rows. *)
Definition GetJobReport (initErr : option error)
    (runQuery : list (rowRead scannedRun) + error)
    (finalQuery : list (rowRead scannedFinal) + error) (jobID : N)
  : JobReport + error :=
  match initErr with
  | Some err => inr (Errorf "could not initialize database: %v" [AError err])
  | None =>
      match runQuery with
      | inr err =>
          inr (Errorf "could not get run report for job %v: %v"
                 [AInt (Z.of_N jobID); AError err])
      | inl rows =>
          match getRunRows jobID (mkRunLoop [] [] 0) rows with
          | inr err => inr err
          | inl st =>
              match finalQuery with
              | inr err =>
                  inr (Errorf "could not get final report for job %v: %v"
                         [AInt (Z.of_N jobID); AError err])
              | inl frows =>
                  match getFinalRows jobID [] frows with
                  | inr err => inr err
                  | inl finalReports =>
                      inl (mkJobReport jobID (lastRun st) finalReports)
                  end
              end
          end
      end
  end.

(** The rows of the two tables as a query hands them over when it reads
    them in the order of insertion. *)
Definition readRuns (db : database) : list (rowRead scannedRun) :=
  (fun r => Scanned (mkScannedRun (row_success r) (row_report_time r)
                       (row_run_number r) (row_data r))) <$> run_reports db.

Definition readFinals (db : database) : list (rowRead scannedFinal) :=
  (fun r => Scanned (mkScannedFinal (frow_success r) (frow_report_time r)
                       (frow_data r))) <$> final_reports db.
End JobReports.

Arguments RowsErr {A}.
Arguments ScanErr {A}.
Arguments Scanned {A}.
Arguments mkReport {ReportData}.
Arguments Success {ReportData}.
Arguments ReportTime {ReportData}.
Arguments Data {ReportData}.
Arguments mkJobReport {ReportData}.
Arguments JobID {ReportData}.
Arguments RunReports {ReportData}.
Arguments FinalReports {ReportData}.
Arguments mkRunLoop {ReportData}.
Arguments runReports {ReportData}.
Arguments currentRunReports {ReportData}.
Arguments lastRunNum {ReportData}.
Arguments lastRun {ReportData}.
Arguments ToJSON {ReportData}.
Arguments storeRun {ReportData}.
Arguments storeRuns {ReportData}.
Arguments storeFinals {ReportData}.
Arguments StoreJobReport {ReportData}.
Arguments getRunRow {ReportData}.
Arguments getRunRows {ReportData}.
Arguments getFinalRows {ReportData}.
Arguments GetJobReport {ReportData}.


(** * Vocabulary of the properties *)

(** The contract of a bounded write of [v] on a channel, for a call that
    starts at tick [start] and returns [r]:
    - the timer fires before anything else can proceed: the timeout error is
      returned at the deadline and nothing was sent;
    - the context is cancelled before the channel can take the value and
      before the timer: [nil] is returned and nothing was sent;
    - the channel takes the value before the timer and before the context is
      cancelled: [nil] is returned and the value was sent;
    - in any case the value is handed over at most once, an error is only
      ever the timeout error, returned at the deadline, and the call does
      not outlive the deadline. *)
Definition writerContract {A : Type} (sc : Sched) (ch : nat -> bool)
    (start : nat) (timeout : Duration) (v : A) (timeoutErr : error)
    (r : writeResult A) : Prop :=
  let deadline := start + ticks timeout in
  ((∀ u, start <= u <= deadline -> ch u = false) ->
   cancelled (cancelAt sc) deadline = false ->
   r = mkWriteResult (Some timeoutErr) [] deadline) ∧
  (∀ k, cancelAt sc = Some k ->
        start `max` k < deadline ->
        (∀ u, start <= u <= start `max` k -> ch u = false) ->
        r = mkWriteResult None [] (start `max` k)) ∧
  (∀ u, start <= u < deadline ->
        ch u = true ->
        (∀ u', start <= u' < u -> ch u' = false) ->
        cancelled (cancelAt sc) u = false ->
        r = mkWriteResult None [v] u) ∧
  (wr_sent r = [] ∨ wr_sent r = [v] ∧ wr_err r = None) ∧
  (is_Some (wr_err r) ->
   wr_err r = Some timeoutErr ∧ wr_sent r = [] ∧ wr_end r = deadline) ∧
  start <= wr_end r <= deadline.

(** The targets taken from [routeIn], the targets handed to an injection
    goroutine, and the closings of [stepIn], in the order they happened. *)
Definition received (tr : list action) : list Target :=
  omap (fun a => match a with ARecvRouteIn t => Some t | _ => None end) tr.

Definition injected (tr : list action) : list Target :=
  omap (fun a => match a with AInject t => Some t | _ => None end) tr.

Definition isCloseStepIn (a : action) : bool :=
  match a with ACloseStepIn => true | _ => false end.

Definition closesStepIn (tr : list action) : nat :=
  length (List.filter isCloseStepIn tr).

(** What holds whenever [routeIn] is at the head of its loop. *)
Definition routeIn_inv (s : routeInState) : Prop :=
  in_err s = None ∧
  (in_running s = [] ∧ in_routeInProgress s = false ∨
   ∃ t, in_running s = [t] ∧ in_routeInProgress s = true) ∧
  received (in_trace s) = injected (in_trace s) ++ rev (in_targets s) ∧
  closesStepIn (in_trace s) = 0 ∧
  dom (in_ingressTarget s) = list_to_set (ID <$> injected (in_trace s)).

(** What holds between the [select] statement and the rest of the body. *)
Definition routeIn_mid (s : routeInState) : Prop :=
  (in_running s = [] ∧ in_routeInProgress s = false ∨
   ∃ t, in_running s = [t] ∧ in_routeInProgress s = true) ∧
  received (in_trace s) = injected (in_trace s) ++ rev (in_targets s) ∧
  closesStepIn (in_trace s) = 0 ∧
  dom (in_ingressTarget s) = list_to_set (ID <$> injected (in_trace s)).

(** What holds once the loop is left. *)
Definition routeIn_exit (s : routeInState) : Prop :=
  length (in_running s) <= 1 ∧
  received (in_trace s) = injected (in_trace s) ++ rev (in_targets s) ∧
  dom (in_ingressTarget s) = list_to_set (ID <$> injected (in_trace s)) ∧
  (is_Some (in_err s) ∧ closesStepIn (in_trace s) = 0 ∨
   in_err s = None ∧ closesStepIn (in_trace s) = 1 ∧
   in_routeIn_open s = false ∧ in_targets s = [] ∧ in_running s = [] ∧
   in_routeInProgress s = false ∧
   ∃ tr, in_trace s = tr ++ [ACloseStepIn]).

(** The targets that left the step through [routeOut] (an event is emitted
    for each and its egress time registered) and the targets delivered to
    the next routing block or to the test runner, in the order they
    happened. *)
Definition egressed (tr : list action) : list Target :=
  omap (fun a => match a with AEmit ev => Some (ED_Target ev) | _ => None end) tr.

Definition forwarded (tr : list action) : list Target :=
  omap (fun a =>
          match a with
          | ASendRouteOut t => Some t
          | ASendTargetErr te => Some (TE_Target te)
          | _ => None
          end) tr.

(** What holds throughout [routeOut]. *)
Definition routeOut_inv (s : routeOutState) : Prop :=
  dom (out_egressTarget s) = list_to_set (ID <$> egressed (out_trace s)) ∧
  NoDup (ID <$> egressed (out_trace s)) ∧
  forwarded (out_trace s) `sublist_of` egressed (out_trace s).

(** What holds in addition at the head of the loop. *)
Definition routeOut_head (s : routeOutState) : Prop :=
  out_err s = None ∧ out_panic s = None.

(** The same communication with an emitter that never fails, and a state
    without its log: two runs that agree up to these differ only in what was
    logged. *)
Definition muteIn (e : routeInEvent) : routeInEvent :=
  match e with
  | InResult k ierr _ => InResult k ierr (fun _ => None)
  | _ => e
  end.

Definition muteOut (e : routeOutEvent) : routeOutEvent :=
  match e with
  | OutCancel => OutCancel
  | OutStepOut t _ w => OutStepOut t (fun _ => None) w
  | OutStepErr te _ w => OutStepErr te (fun _ => None) w
  end.

Definition muted {E : Type} (mute : E -> E) (evs : list (Time * E))
  : list (Time * E) :=
  map (fun ne => (ne.1, mute ne.2)) evs.

Definition in_forget_log (s : routeInState) : routeInState :=
  mkRouteInState (in_routeIn_open s) (in_targets s) (in_ingressTarget s)
    (in_routeInProgress s) (in_err s) (in_running s) (in_trace s) [].

Definition out_forget_log (s : routeOutState) : routeOutState :=
  mkRouteOutState (out_stepOut_open s) (out_stepErr_open s)
    (out_egressTarget s) (out_err s) (out_trace s) [] (out_panic s).

(** Sample inputs for the examples. *)
Definition sampleOperand : bool -> ascii -> fmtArg -> string :=
  fun _ _ a => match a with AString s => s | _ => "?" end.
Definition host001 : Target := mkTarget "001" "host001" "host001.example.com".
Definition host002 : Target := mkTarget "002" "host002" "host002.example.com".
Definition sampleTimeouts : TestRunnerTimeouts := mkTimeouts 30%Z 5%Z 1%Z 1%Z.
Definition okEmitter : Emitter := fun _ => None.
Definition failingEmitter : Emitter := fun _ => Some (ErrorString "storage down").
(** Nobody cancels, the other side of every channel is waiting. *)
Definition calm : writeEnv := mkWriteEnv (mkSched None (fun _ => 0)) (fun _ => true) 0.

(** The event [emitOutEvent] hands to the emitter for a target that left the
    step with error [err]. *)
Definition outEvent (fmtOperand : bool -> ascii -> fmtArg -> string)
    (t : Target) (err : option error) : EventData :=
  match err with
  | Some e =>
      mkEventData EventTargetErr t
        (Some (jsonMarshal (mkErrPayload (Error fmtOperand e))))
  | None => mkEventData EventTargetOut t None
  end.

(** The routing error as the specification words it: the first non-nil
    error of the two activities, and, when there is none, the
    target-count-mismatch error if the two counts differ. *)
Definition firstErrorOrMismatch (stepLabel : string)
    (inTargets : nat) (errRouteIn : option error)
    (outTargets : nat) (errRouteOut : option error) : option error :=
  match errRouteIn, errRouteOut with
  | Some e, _ => Some e
  | None, Some e => Some e
  | None, None =>
      if (inTargets =? outTargets)%nat then None
      else Some (Errorf
                   "step %s completed but did not return all injected Targets (%d!=%d)"
                   [AString stepLabel; AInt (Z.of_nat inTargets);
                    AInt (Z.of_nat outTargets)])
  end.

(** A message without the characters that HTML escaping rewrites
    ([&], [<] and [>]). *)
Fixpoint htmlFree (s : string) : bool :=
  match s with
  | EmptyString => true
  | String b rest =>
      negb ((byteVal b =? 38)%N || (byteVal b =? 60)%N || (byteVal b =? 62)%N)
      && htmlFree rest
  end.

(** The closings of [routeOut]. *)
Definition isCloseRouteOut (a : action) : bool :=
  match a with ACloseRouteOut => true | _ => false end.

Definition closesRouteOut (tr : list action) : nat :=
  length (List.filter isCloseRouteOut tr).

(** The forwarding write of the iteration runs under a context that is
    never cancelled. *)
Definition uncancelled (e : routeOutEvent) : Prop :=
  match e with
  | OutCancel => True
  | OutStepOut _ _ w => cancelAt (we_sched w) = None
  | OutStepErr _ _ w => cancelAt (we_sched w) = None
  end.

(** The events handed to the emitter, by name and target. *)
Definition emitted (tr : list action) : list (string * Target) :=
  omap (fun a =>
          match a with
          | AEmit ev => Some (EventName ev, ED_Target ev)
          | _ => None
          end) tr.

(** The targets that left the step were all forwarded, or the last one was
    not and the process is aborted. *)
Definition forwarded_or_panicked (s : routeOutState) : Prop :=
  out_panic s = None ∧ forwarded (out_trace s) = egressed (out_trace s) ∨
  is_Some (out_panic s) ∧
  ∃ t, egressed (out_trace s) = forwarded (out_trace s) ++ [t].

(** The events emitted so far are one per injection whose result was
    received, in the order of the injections; while there is no error they
    are all [TargetIn] events. *)
Definition routeIn_events (s : routeInState) : Prop :=
  (emitted (in_trace s)).*2 ++ in_running s = injected (in_trace s) ∧
  (in_err s = None ->
   Forall (fun x => x.1 = EventTargetIn) (emitted (in_trace s))).

(** Every byte of a string passes a test. *)
Fixpoint strForall (P : ascii -> bool) (s : string) : bool :=
  match s with
  | EmptyString => true
  | String b rest => P b && strForall P rest
  end.

(** A byte that may stand as it is in the encoding of a string: no control
    character, and with HTML escaping none of [&], [<] and [>]. *)
Definition plainByte (escapeHTML : bool) (b : ascii) : bool :=
  (32 <=? byteVal b)%N &&
  (negb escapeHTML ||
   negb ((byteVal b =? 38)%N || (byteVal b =? 60)%N || (byteVal b =? 62)%N)).

(** The next [n] bytes of [s], as far as there are any, are not ASCII. *)
Fixpoint tailBytes (n : nat) (s : string) : bool :=
  match n, s with
  | S k, String b rest => (128 <=? byteVal b)%N && tailBytes k rest
  | _, _ => true
  end.

(** The run numbers that go with a list of groups of reports: as many
    times 1 as the first group has reports, then 2, and so on. *)
Definition runNumbers {A : Type} (groups : list (list A)) : list N :=
  concat (imap (fun i g => replicate (length g) (N.of_nat (S i))) groups).

(** A scanned row and the report that [GetJobReport] makes of it. *)
Definition scansTo {ReportData : Type} (jsonUnmarshal : string -> ReportData + error)
    (sr : scannedRun) (r : Report ReportData) : Prop :=
  Success r = sr_success sr ∧ ReportTime r = sr_report_time sr ∧
  jsonUnmarshal (sr_data sr) = inl (Data r).

(** What the first loop of [GetJobReport] keeps. *)
Definition runLoop_wf {ReportData : Type} (st : runLoop ReportData) : Prop :=
  lastRunNum st = N.of_nat (length (lastRun st)) ∧
  Forall (fun g => g ≠ []) (runReports st) ∧
  (currentRunReports st = [] -> runReports st = []).

(** The rows that [StoreJobReport] inserts for the reports of one run. *)
Definition rowsOfRun {ReportData : Type}
    (jsonEncode : bool -> ReportData -> string * option error)
    (jobID : N) (runID : nat) (reports : list (Report ReportData))
  : list runRow :=
  (fun r => mkRunRow jobID (N.of_nat (runID + 1)) (Success r) (ReportTime r)
              (ToJSON jsonEncode r).1) <$> reports.

Definition rowsOfFinals {ReportData : Type}
    (jsonEncode : bool -> ReportData -> string * option error)
    (jobID : N) (reports : list (Report ReportData)) : list finalRow :=
  (fun r => mkFinalRow jobID (Success r) (ReportTime r)
              (ToJSON jsonEncode r).1) <$> reports.

(** The rows of all the runs, the first of which has run ID [runID]. *)
Fixpoint rowsOfRuns {ReportData : Type}
    (jsonEncode : bool -> ReportData -> string * option error)
    (jobID : N) (runID : nat) (runs : list (list (Report ReportData)))
  : list runRow :=
  match runs with
  | [] => []
  | reports :: rest =>
      rowsOfRun jsonEncode jobID runID reports ++
      rowsOfRuns jsonEncode jobID (S runID) rest
  end.

(** The identity as an encoding of string data, for the examples. *)
Definition plainEncode (escapeHTML : bool) (d : string) : string * option error :=
  (d, None).
Definition plainUnmarshal (s : string) : string + error := inl s.

(** The data of a report survives encoding and decoding. *)
Definition decodes {ReportData : Type}
    (jsonEncode : bool -> ReportData -> string * option error)
    (jsonUnmarshal : string -> ReportData + error)
    (r : Report ReportData) : Prop :=
  jsonUnmarshal (ToJSON jsonEncode r).1 = inl (Data r).

(** * Properties *)

(** ** The [select] statement *)

Lemma cancelled_mono c u v :
  cancelled c u = true -> u <= v -> cancelled c v = true.
Proof.
  destruct c as [k|]; simpl; [|done].
  intros H Hle. apply Nat.leb_le in H. apply Nat.leb_le. lia.
Qed.

Lemma pickReady_elem_of pk t ready :
  ready ≠ [] -> pickReady pk t ready ∈ ready.
Proof.
  intros Hl. apply list_elem_of_In, nth_In.
  apply Nat.mod_upper_bound. destruct ready; simpl; [done | lia].
Qed.

Lemma elem_of_readyCases cs c recv left t :
  cs ∈ readyCases c recv left t ->
  match cs with
  | CtxDone => cancelled c t = true
  | ChanSend => recv t = true
  | TimeAfter => left = 0
  end.
Proof.
  unfold readyCases. intros H.
  destruct (cancelled c t), (recv t), left; simpl in H; destruct cs; try done;
    repeat (apply elem_of_cons in H as [H|H]; [discriminate|]);
    by apply elem_of_nil in H.
Qed.

(** The case taken is one that can proceed at the tick the statement is
    left, no communication could proceed earlier, and the timer bounds the
    wait. *)
Lemma selectWait_spec c recv pk left t cs t' :
  selectWait c recv pk left t = (cs, t') ->
  t <= t' <= t + left ∧
  (∀ u, t <= u < t' -> cancelled c u = false ∧ recv u = false) ∧
  match cs with
  | CtxDone => cancelled c t' = true
  | ChanSend => recv t' = true
  | TimeAfter => t' = t + left
  end.
Proof.
  revert t. induction left as [|l IH]; intros t; simpl.
  - destruct (readyCases c recv 0 t) as [|x r] eqn:E.
    + unfold readyCases in E. destruct (cancelled c t), (recv t); discriminate.
    + intros [= <- <-]. split; [lia|]. split; [intros; lia|].
      pose proof (pickReady_elem_of pk t (x :: r) ltac:(done)) as Hp.
      rewrite <- E in Hp at 2. apply elem_of_readyCases in Hp.
      destruct (pickReady pk t (x :: r)); try done; lia.
  - destruct (readyCases c recv (S l) t) as [|x r] eqn:E.
    + intros H. apply IH in H as (Hb & Hq & Hc).
      split; [lia|]. split.
      * intros u Hu. destruct (decide (u = t)) as [->|].
        -- unfold readyCases in E.
           destruct (cancelled c t), (recv t); try discriminate. done.
        -- apply Hq. lia.
      * destruct cs; auto. lia.
    + intros [= <- <-]. split; [lia|]. split; [intros; lia|].
      pose proof (pickReady_elem_of pk t (x :: r) ltac:(done)) as Hp.
      rewrite <- E in Hp at 2. apply elem_of_readyCases in Hp.
      destruct (pickReady pk t (x :: r)); try done.
Qed.

(** Nothing can proceed before the timer: the timer case is taken. *)
Lemma selectWait_timer c recv pk left t :
  (∀ u, t <= u <= t + left -> recv u = false) ->
  cancelled c (t + left) = false ->
  selectWait c recv pk left t = (TimeAfter, t + left).
Proof.
  intros Hr Hc. destruct (selectWait c recv pk left t) as [cs t'] eqn:E.
  apply selectWait_spec in E as (Hb & _ & Hcs). destruct cs.
  - apply (cancelled_mono _ _ (t + left)) in Hcs; [congruence | lia].
  - rewrite Hr in Hcs; [done | lia].
  - by subst.
Qed.

(** The context is cancelled strictly before the timer and before the
    channel can take the value: the cancellation case is taken. *)
Lemma selectWait_cancel c recv pk left t k :
  c = Some k ->
  t `max` k < t + left ->
  (∀ u, t <= u <= t `max` k -> recv u = false) ->
  selectWait c recv pk left t = (CtxDone, t `max` k).
Proof.
  intros -> Hk Hr. destruct (selectWait (Some k) recv pk left t) as [cs t'] eqn:E.
  apply selectWait_spec in E as (Hb & Hq & Hcs).
  assert (t' <= t `max` k) as Hle.
  { destruct (decide (t' <= t `max` k)); [done|].
    destruct (Hq (t `max` k)) as [Hc _]; [lia|].
    simpl in Hc. apply Nat.leb_gt in Hc. lia. }
  destruct cs.
  - simpl in Hcs. apply Nat.leb_le in Hcs. f_equal. lia.
  - rewrite Hr in Hcs; [done | lia].
  - lia.
Qed.

(** The channel can take the value at [u], before the timer, not earlier,
    and the context is not cancelled by then: the send case is taken. *)
Lemma selectWait_send c recv pk left t u :
  t <= u < t + left ->
  recv u = true ->
  (∀ v, t <= v < u -> recv v = false) ->
  cancelled c u = false ->
  selectWait c recv pk left t = (ChanSend, u).
Proof.
  intros Hu Hru Hr Hc. destruct (selectWait c recv pk left t) as [cs t'] eqn:E.
  apply selectWait_spec in E as (Hb & Hq & Hcs).
  assert (t' <= u) as Hle.
  { destruct (decide (t' <= u)); [done|].
    destruct (Hq u) as [_ Hx]; [lia | congruence]. }
  destruct cs.
  - apply (cancelled_mono _ _ u) in Hcs; [congruence | lia].
  - destruct (decide (t' = u)) as [->|]; [done|].
    rewrite Hr in Hcs; [done | lia].
  - lia.
Qed.

(** ** targetWriter *)

Lemma writerContract_select {A : Type} sc ch start timeout (v : A) e r :
  r = (match selectWait (cancelAt sc) ch (pick sc) (ticks timeout) start with
       | (CtxDone, t) => mkWriteResult None [] t
       | (ChanSend, t) => mkWriteResult None [v] t
       | (TimeAfter, t) => mkWriteResult (Some e) [] t
       end) ->
  writerContract sc ch start timeout v e r.
Proof.
  intros ->. unfold writerContract. repeat split.
  - intros Hr Hc. by rewrite selectWait_timer.
  - intros k Hk Hlt Hr. by rewrite (selectWait_cancel _ _ _ _ _ k).
  - intros u Hu Hru Hr Hc. by rewrite (selectWait_send _ _ _ _ _ u).
  - destruct (selectWait _ _ _ _ _) as [[] t]; simpl; auto.
  - destruct (selectWait _ _ _ _ _) as [[] t] eqn:E; simpl in *;
      try (by destruct H as [? [=]]); done.
  - destruct (selectWait _ _ _ _ _) as [[] t] eqn:E; simpl in *;
      try (by destruct H as [? [=]]); done.
  - destruct (selectWait _ _ _ _ _) as [[] t] eqn:E; simpl in *;
      try (by destruct H as [? [=]]).
    apply selectWait_spec in E. lia.
  - destruct (selectWait _ _ _ _ _) as [cs t] eqn:E.
    apply selectWait_spec in E. destruct cs; simpl; lia.
  - destruct (selectWait _ _ _ _ _) as [cs t] eqn:E.
    apply selectWait_spec in E. destruct cs; simpl; lia.
Qed.

(** C3: [writeTimeout] returns a timeout error if the send does not complete
    within the timeout, returns nil with the send abandoned if the context
    is cancelled first, returns nil if the send completes, and attempts the
    send once; [writeTargetError] has the same contract for [TargetError]
    values. *)
Theorem writeTimeout_contract (sc : Sched) (ch : nat -> bool) (start : nat)
    (target : Target) (targetError : TargetError) (timeout : Duration) :
  writerContract sc ch start timeout target
    (Errorf "timeout (%v) while writing target %+v"
       [ADuration timeout; ATarget target])
    (writeTimeout sc ch start target timeout) ∧
  writerContract sc ch start timeout targetError
    (Errorf "timeout while writing targetError %+v"
       [ATargetError (TE_Target targetError) (TE_Err targetError)])
    (writeTargetError sc ch start targetError timeout).
Proof.
  split; apply writerContract_select.
  - unfold writeTimeout. by destruct (selectWait _ _ _ _ _) as [[] t].
  - unfold writeTargetError. by destruct (selectWait _ _ _ _ _) as [[] t].
Qed.

(** C4: [writeTargetWithResult] injects with the [StepInject] timeout and
    then posts [{target, err}] on the result channel within the [Message]
    timeout; when the post times out, the context not being cancelled, the
    process is aborted.  The one way to return without posting is on
    [ctx.Done()]. *)
Theorem writeTargetWithResult_posts_or_panics (timeouts : TestRunnerTimeouts)
    (sc : Sched) (stepIn resultCh : nat -> bool) (start : nat)
    (target : Target) :
  let r := writeTargetWithResult timeouts sc stepIn resultCh start target in
  let w := writeTimeout sc stepIn start target (StepInjectTimeout timeouts) in
  let deadline := wr_end w + ticks (MessageTimeout timeouts) in
  let record := mkInjectionResult target (wr_err w) in
  let panic :=
    Panicked "timeout while writing result for target %+v after %v"
      [ATarget target; ADuration (MessageTimeout timeouts)] in
  inj_write r = w ∧
  wr_end w <= inj_end r <= deadline ∧
  match inj_outcome r with
  | Posted rec => rec = record ∧ resultCh (inj_end r) = true
  | Dropped => cancelled (cancelAt sc) (inj_end r) = true
  | Panicked _ _ => inj_outcome r = panic ∧ inj_end r = deadline
  end ∧
  (∀ u, wr_end w <= u < deadline ->
        resultCh u = true ->
        (∀ u', wr_end w <= u' < u -> resultCh u' = false) ->
        cancelled (cancelAt sc) u = false ->
        inj_outcome r = Posted record ∧ inj_end r = u) ∧
  ((∀ u, wr_end w <= u <= deadline -> resultCh u = false) ->
   cancelled (cancelAt sc) deadline = false ->
   inj_outcome r = panic ∧ inj_end r = deadline).
Proof.
  intros r w deadline record panic. subst r. unfold writeTargetWithResult.
  fold w. repeat split.
  - by destruct (selectWait _ _ _ _ _) as [[] t].
  - destruct (selectWait _ _ _ _ _) as [cs t] eqn:E.
    apply selectWait_spec in E. destruct cs; simpl; lia.
  - destruct (selectWait _ _ _ _ _) as [cs t] eqn:E.
    apply selectWait_spec in E. subst deadline. destruct cs; simpl; lia.
  - destruct (selectWait _ _ _ _ _) as [cs t] eqn:E.
    apply selectWait_spec in E as (_ & _ & E). by destruct cs; simpl.
  - rewrite (selectWait_send _ _ _ _ _ u); done.
  - rewrite (selectWait_send _ _ _ _ _ u); done.
  - rewrite selectWait_timer; done.
  - rewrite selectWait_timer; done.
Qed.

(** C10: when the context is cancelled before the result can be posted (and
    before the [Message] timer), [writeTargetWithResult] returns without
    posting any record and without aborting the process. *)
Theorem writeTargetWithResult_drops_on_cancel (timeouts : TestRunnerTimeouts)
    (sc : Sched) (stepIn resultCh : nat -> bool) (start : nat)
    (target : Target) (k : nat) :
  cancelAt sc = Some k ->
  wr_end (writeTimeout sc stepIn start target (StepInjectTimeout timeouts))
    `max` k
  < wr_end (writeTimeout sc stepIn start target (StepInjectTimeout timeouts))
    + ticks (MessageTimeout timeouts) ->
  (∀ u,
     wr_end (writeTimeout sc stepIn start target (StepInjectTimeout timeouts))
     <= u <=
     wr_end (writeTimeout sc stepIn start target (StepInjectTimeout timeouts))
       `max` k ->
     resultCh u = false) ->
  inj_outcome (writeTargetWithResult timeouts sc stepIn resultCh start target)
  = Dropped ∧
  inj_end (writeTargetWithResult timeouts sc stepIn resultCh start target)
  = wr_end (writeTimeout sc stepIn start target (StepInjectTimeout timeouts))
      `max` k.
Proof.
  intros Hk Hlt Hr. unfold writeTargetWithResult.
  by rewrite (selectWait_cancel _ _ _ _ _ k).
Qed.

(** ** routeIn *)

Lemma received_snoc tr a :
  received (tr ++ [a]) =
  received tr ++ match a with ARecvRouteIn t => [t] | _ => [] end.
Proof. unfold received. rewrite omap_app. by destruct a. Qed.

Lemma injected_snoc tr a :
  injected (tr ++ [a]) =
  injected tr ++ match a with AInject t => [t] | _ => [] end.
Proof. unfold injected. rewrite omap_app. by destruct a. Qed.

Lemma closesStepIn_snoc tr a :
  closesStepIn (tr ++ [a]) =
  closesStepIn tr + (if isCloseStepIn a then 1 else 0).
Proof.
  unfold closesStepIn. rewrite List.filter_app, length_app. simpl.
  by destruct (isCloseStepIn a).
Qed.

Lemma routeIn_init_inv : routeIn_inv routeIn_init.
Proof.
  unfold routeIn_inv, routeIn_init; simpl. repeat split; auto.
Qed.

Lemma routeIn_select_mid stepLabel s e :
  routeIn_inv s -> routeIn_mid (routeIn_select stepLabel s e).
Proof.
  intros (Herr & Hrun & Hfifo & Hcl & Hdom).
  destruct s as [op tg ing prog err run tr lg]; simpl in *.
  destruct e as [|k ierr emit|[t|]]; unfold routeIn_mid; simpl; auto.
  - destruct (run !! k) as [t|] eqn:Hk; simpl; [|by auto].
    assert (delete k run = []) as ->.
    { destruct Hrun as [[-> _]|(t' & -> & _)]; [done|].
      destruct k; [done|]. by destruct k. }
    destruct ierr; simpl;
      rewrite received_snoc, injected_snoc, closesStepIn_snoc; simpl;
      rewrite !app_nil_r, Nat.add_0_r; auto.
  - rewrite received_snoc, injected_snoc, closesStepIn_snoc; simpl.
    rewrite app_nil_r, Nat.add_0_r, Hfifo, app_assoc. auto.
Qed.

Lemma routeIn_inject_inv now s s' c :
  routeIn_mid s ->
  routeIn_inject now s = (s', c) ->
  if c then routeIn_inv s' else routeIn_exit s'.
Proof.
  intros (Hrun & Hfifo & Hcl & Hdom) Hit. unfold routeIn_inject in Hit.
  destruct s as [op tg ing prog err run tr lg]; simpl in *.
  destruct err as [e|].
  { injection Hit as <- <-. unfold routeIn_exit; simpl.
    split; [|by eauto 10].
    destruct Hrun as [[-> _]|(t & -> & _)]; simpl; lia. }
  destruct prog.
  { injection Hit as <- <-. unfold routeIn_inv; simpl. auto. }
  destruct Hrun as [[-> _]|(t & _ & [=])].
  destruct (last tg) as [t|] eqn:Hlast.
  - injection Hit as <- <-. unfold routeIn_inv; simpl.
    apply last_Some in Hlast as [tg' ->].
    rewrite removelast_last, received_snoc, injected_snoc, closesStepIn_snoc.
    simpl. rewrite app_nil_r, Nat.add_0_r, Hfifo, rev_unit, <- app_assoc.
    repeat split; eauto.
    rewrite dom_insert_L, Hdom, fmap_app, list_to_set_app_L. simpl.
    rewrite union_empty_r_L. apply (comm_L (∪)).
  - apply last_None in Hlast as ->. destruct op.
    + injection Hit as <- <-. unfold routeIn_inv; simpl. auto.
    + injection Hit as <- <-. unfold routeIn_exit; simpl.
      rewrite received_snoc, injected_snoc, closesStepIn_snoc; simpl.
      rewrite !app_nil_r, Hcl. simpl in Hfifo. rewrite app_nil_r in Hfifo.
      split; [lia|]. split; [done|]. split; [done|].
      right. repeat split; eauto.
Qed.

(** One iteration keeps the loop invariant, or leaves the loop in a state
    described by [routeIn_exit]. *)
Lemma routeIn_iter_inv stepLabel now s e s' c :
  routeIn_inv s ->
  routeIn_iter stepLabel now s e = (s', c) ->
  if c then routeIn_inv s' else routeIn_exit s'.
Proof.
  intros Hinv Hit. eapply routeIn_inject_inv; [|exact Hit].
  by apply routeIn_select_mid.
Qed.

Lemma routeIn_loop_inv stepLabel evs s s' exited :
  routeIn_inv s ->
  routeIn_loop stepLabel s evs = (s', exited) ->
  if exited then routeIn_exit s' else routeIn_inv s'.
Proof.
  revert s. induction evs as [|[now e] evs IH]; intros s Hinv; simpl.
  - by intros [= <- <-].
  - destruct (routeIn_enabled s e); [|by apply IH].
    destruct (routeIn_iter stepLabel now s e) as [s1 c] eqn:Hit.
    apply routeIn_iter_inv in Hit; [|done]. destruct c.
    + by apply IH.
    + by intros [= <- <-].
Qed.

(** C6: at every point of the [routeIn] loop at most one injection goroutine
    has not handed back its result, and the targets handed to the step are,
    in order, the first targets that arrived on [routeIn]; the targets that
    arrived later wait in the buffer, oldest at the back. *)
Theorem routeIn_one_inflight_fifo (stepLabel : string)
    (evs : list (Time * routeInEvent)) :
  length (in_running (routeIn_loop stepLabel routeIn_init evs).1) <= 1 ∧
  received (in_trace (routeIn_loop stepLabel routeIn_init evs).1) =
    injected (in_trace (routeIn_loop stepLabel routeIn_init evs).1) ++
    rev (in_targets (routeIn_loop stepLabel routeIn_init evs).1) ∧
  injected (in_trace (routeIn_loop stepLabel routeIn_init evs).1)
    `prefix_of` received (in_trace (routeIn_loop stepLabel routeIn_init evs).1).
Proof.
  destruct (routeIn_loop stepLabel routeIn_init evs) as [s exited] eqn:E.
  apply routeIn_loop_inv in E; [|apply routeIn_init_inv]. simpl.
  assert (length (in_running s) <= 1 ∧
          received (in_trace s) = injected (in_trace s) ++ rev (in_targets s))
    as [Hlen Hfifo].
  { destruct exited.
    - destruct E as (? & ? & _). done.
    - destruct E as (_ & Hrun & ? & _). split; [|done].
      destruct Hrun as [[-> _]|(t & -> & _)]; simpl; lia. }
  repeat split; [done..|]. rewrite Hfifo. by apply prefix_app_r.
Qed.

(** C5, as the code has it: [routeIn] closes [stepIn] at most once; it does
    so exactly when it leaves its loop without error, never when it leaves
    with an error; and the closing is its last action, taken when the
    [routeIn] channel is closed, the buffer is empty and no injection is in
    flight. *)
Theorem routeIn_closes_stepIn (stepLabel : string)
    (evs : list (Time * routeInEvent)) (s : routeInState) (exited : bool) :
  routeIn_loop stepLabel routeIn_init evs = (s, exited) ->
  closesStepIn (in_trace s) <= 1 ∧
  (closesStepIn (in_trace s) = 1 <-> exited = true ∧ in_err s = None) ∧
  (is_Some (in_err s) -> closesStepIn (in_trace s) = 0) ∧
  (closesStepIn (in_trace s) = 1 ->
   in_routeIn_open s = false ∧ in_targets s = [] ∧ in_running s = [] ∧
   in_routeInProgress s = false ∧
   ∃ tr, in_trace s = tr ++ [ACloseStepIn]).
Proof.
  intros E. apply routeIn_loop_inv in E; [|apply routeIn_init_inv].
  destruct exited.
  - destruct E as (_ & _ & _ & [[[e He] Hc]|(He & Hc & Hrest)]).
    + rewrite Hc, He. repeat split; try lia; try done. by intros [_ [=]].
    + rewrite Hc, He. split; [lia|]. split; [done|].
      split; [by intros [? [=]] | done].
  - destruct E as (He & _ & _ & Hc & _). rewrite Hc, He.
    repeat split; try lia; try done.
Qed.

(** A run that gets to close [stepIn]: one target arrives, is injected, the
    input is closed. *)
Lemma routeIn_closes_stepIn_witness :
  closesStepIn
    (in_trace
       (routeIn_loop "step" routeIn_init
          [(0, InRecv (Some (mkTarget "001" "host001" "host001.example.com")));
           (1, InResult 0 None (fun _ => None));
           (2, InRecv None)]).1) = 1.
Proof.
  pose proof (routeIn_closes_stepIn "step"
    [(0, InRecv (Some (mkTarget "001" "host001" "host001.example.com")));
     (1, InResult 0 None (fun _ => None));
     (2, InRecv None)] _ true eq_refl) as (_ & H & _).
  apply H. split; reflexivity.
Defined.

(** C5 as stated fails: a run of [routeIn] that is cancelled leaves its loop
    (and returns) without closing [stepIn]. *)
Lemma routeIn_cancelled_keeps_stepIn_open :
  (routeIn_loop "step" routeIn_init [(0, InCancel)]).2 = true ∧
  closesStepIn (in_trace (routeIn_loop "step" routeIn_init [(0, InCancel)]).1)
  = 0 ∧
  routeIn "step" [(0, InCancel)] =
    Some (0, Some (Errorf "termination requested for routing into %s"
                     [AString "step"])).
Proof. repeat split. Qed.

(** ** routeOut *)

Section RouteOutProps.
Variable fmtOperand : bool -> ascii -> fmtArg -> string.
Variable stepLabel : string.
Variable timeouts : TestRunnerTimeouts.

Lemma emitOutEvent_target emit t err :
  ED_Target (emitOutEvent fmtOperand emit t err).1.1 = t.
Proof.
  unfold emitOutEvent. destruct err; by destruct (emit _).
Qed.

Lemma writeTimeout_sent sc ch start t d :
  wr_sent (writeTimeout sc ch start t d) `sublist_of` [t].
Proof.
  unfold writeTimeout. destruct (selectWait _ _ _ _ _) as [[] ?]; simpl;
    by (apply sublist_nil_l || reflexivity).
Qed.

Lemma writeTargetError_sent sc ch start te d :
  wr_sent (writeTargetError sc ch start te d) `sublist_of` [te].
Proof.
  unfold writeTargetError. destruct (selectWait _ _ _ _ _) as [[] ?]; simpl;
    by (apply sublist_nil_l || reflexivity).
Qed.

Lemma egressed_forward {A} tr ev (sent : A -> action) l :
  (∀ x, match sent x with AEmit _ => False | _ => True end) ->
  egressed (tr ++ AEmit ev :: map sent l) = egressed tr ++ [ED_Target ev].
Proof.
  intros Hs. unfold egressed. rewrite !omap_app. simpl. f_equal. f_equal.
  induction l as [|x l IH]; simpl; [done|].
  specialize (Hs x). by destruct (sent x).
Qed.

Lemma forwarded_forward {A} tr ev (sent : A -> action) (tgt : A -> Target) l :
  (∀ x, omap (fun a =>
                match a with
                | ASendRouteOut t => Some t
                | ASendTargetErr te => Some (TE_Target te)
                | _ => None
                end) [sent x] = [tgt x]) ->
  forwarded (tr ++ AEmit ev :: map sent l) = forwarded tr ++ (tgt <$> l).
Proof.
  intros Hs. unfold forwarded. rewrite !omap_app. simpl. f_equal.
  induction l as [|x l IH]; simpl; [done|].
  specialize (Hs x). simpl in Hs. destruct (sent x); simplify_eq; by f_equal.
Qed.

(** Registering the egress of a target whose ID is new keeps the
    invariant. *)
Lemma routeOut_inv_forward {A} now t emitted w (wr : writeResult A) sent tgt
    pf pa s (x : A) :
  routeOut_inv s ->
  out_egressTarget s !! ID t = None ->
  ED_Target emitted.1.1 = t ->
  tgt x = t ->
  wr_sent wr `sublist_of` [x] ->
  (∀ y, match sent y with AEmit _ => False | _ => True end) ->
  (∀ y, omap (fun a =>
                match a with
                | ASendRouteOut t => Some t
                | ASendTargetErr te => Some (TE_Target te)
                | _ => None
                end) [sent y] = [tgt y]) ->
  routeOut_inv (out_forward now t emitted w wr sent pf pa s).
Proof.
  intros (Hdom & Hnd & Hsub) Hnew Hev Htgt Hwr Hs1 Hs2.
  destruct emitted as [[ev logs] ret]. simpl in Hev.
  unfold routeOut_inv, out_forward; simpl.
  rewrite egressed_forward, (forwarded_forward _ _ _ tgt), Hev by done.
  rewrite fmap_app. simpl. split; [|split].
  - rewrite dom_insert_L, Hdom, list_to_set_app_L. simpl.
    rewrite union_empty_r_L. apply (comm_L (∪)).
  - apply NoDup_app. split; [done|]. split; [|apply NoDup_singleton].
    intros i Hi Hi'. apply list_elem_of_singleton in Hi' as ->.
    apply not_elem_of_dom in Hnew. apply Hnew. rewrite Hdom.
    by apply elem_of_list_to_set.
  - apply sublist_app; [done|].
    rewrite <- Htgt. change [tgt x] with (tgt <$> [x]). by apply fmap_sublist.
Qed.

Lemma routeOut_select_inv now s e :
  routeOut_inv s ->
  routeOut_inv (routeOut_select fmtOperand stepLabel timeouts now s e).
Proof.
  intros Hinv. destruct e as [|[t|] emit w|[te|] emit w]; simpl; try done.
  - destruct (out_egressTarget s !! ID t) eqn:Hl; [done|].
    apply (routeOut_inv_forward _ _ _ _ _ _ id _ _ _ t); auto.
    + exact (emitOutEvent_target emit t None).
    + apply writeTimeout_sent.
  - destruct (out_egressTarget s !! ID (TE_Target te)) eqn:Hl; [done|].
    apply (routeOut_inv_forward _ _ _ _ _ _ TE_Target _ _ _ te); auto.
    + exact (emitOutEvent_target emit (TE_Target te) (TE_Err te)).
    + apply writeTargetError_sent.
Qed.

Lemma routeOut_iter_inv now s e s' c :
  routeOut_inv s ->
  routeOut_iter fmtOperand stepLabel timeouts now s e = (s', c) ->
  routeOut_inv s' ∧ (c = Continue -> routeOut_head s').
Proof.
  intros Hinv Hit. unfold routeOut_iter, routeOut_finish in Hit.
  pose proof (routeOut_select_inv now s e Hinv) as H1.
  destruct (routeOut_select _ _ _ _ _ _) as [so se eg err tr lg pn].
  simpl in Hit. destruct pn; [by simplify_eq|].
  destruct err; [by simplify_eq|].
  destruct (negb se && negb so); simplify_eq; [|done].
  split; [|done]. destruct H1 as (Hd & Hn & Hs).
  unfold routeOut_inv, egressed, forwarded in *; simpl in *.
  rewrite !omap_app; simpl. by rewrite !app_nil_r.
Qed.

Lemma routeOut_loop_inv evs s s' c :
  routeOut_inv s -> routeOut_head s ->
  routeOut_loop fmtOperand stepLabel timeouts s evs = (s', c) ->
  routeOut_inv s' ∧ (c = Continue -> routeOut_head s').
Proof.
  revert s. induction evs as [|[now e] evs IH]; intros s Hinv Hhead; simpl.
  - by intros [= <- <-].
  - destruct (routeOut_enabled s e); [|by apply IH].
    destruct (routeOut_iter _ _ _ now s e) as [s1 c1] eqn:Hit.
    apply routeOut_iter_inv in Hit as [Hi Hh]; [|done].
    destruct c1; try by intros [= <- <-].
    apply IH; auto.
Qed.

Lemma routeOut_init_inv : routeOut_inv routeOut_init ∧ routeOut_head routeOut_init.
Proof.
  unfold routeOut_inv, routeOut_head, routeOut_init; simpl.
  repeat split; auto. apply NoDup_nil_2.
Qed.
End RouteOutProps.

(** C7: no target ID is registered twice in the egress set of a stage, over
    [stepOut] and [stepErr] together: the IDs of the targets that left the
    step (and of those forwarded) are pairwise distinct and are the keys of
    [egressTarget]; and whenever [routeOut], at the head of its loop,
    receives on [stepOut] or on [stepErr] a target whose ID is already in
    the egress set, it leaves the loop with the duplicate-target error,
    with nothing emitted, registered or forwarded. *)
Theorem routeOut_no_duplicate_egress
    (fmtOperand : bool -> ascii -> fmtArg -> string) (stepLabel : string)
    (timeouts : TestRunnerTimeouts) (evs : list (Time * routeOutEvent))
    (s : routeOutState) (c : loopCtl) :
  routeOut_loop fmtOperand stepLabel timeouts routeOut_init evs = (s, c) ->
  NoDup (ID <$> egressed (out_trace s)) ∧
  NoDup (ID <$> forwarded (out_trace s)) ∧
  dom (out_egressTarget s) = list_to_set (ID <$> egressed (out_trace s)) ∧
  size (out_egressTarget s) = length (egressed (out_trace s)) ∧
  (c = Continue ->
   ∀ now t emit w,
     is_Some (out_egressTarget s !! ID t) ->
     routeOut_iter fmtOperand stepLabel timeouts now s
       (OutStepOut (Some t) emit w) =
       (out_set_err (Errorf "step %s returned target %+v multiple times"
                       [AString stepLabel; ATarget t]) s, Break) ∧
     ∀ te, TE_Target te = t ->
       routeOut_iter fmtOperand stepLabel timeouts now s
         (OutStepErr (Some te) emit w) =
         (out_set_err (Errorf "step %s returned target %+v multiple times"
                         [AString stepLabel; ATarget t]) s, Break)).
Proof.
  intros E.
  apply routeOut_loop_inv in E as [(Hdom & Hnd & Hsub) Hhead];
    try apply routeOut_init_inv.
  split; [done|]. split.
  { eapply sublist_NoDup; [exact Hnd|]. by apply fmap_sublist. }
  split; [done|]. split.
  { rewrite <- size_dom, Hdom, size_list_to_set, length_fmap; done. }
  intros -> now t emit w [x Hx]. destruct (Hhead eq_refl) as [He Hp].
  split; [|intros te <-];
    unfold routeOut_iter, routeOut_finish; simpl; rewrite Hx; simpl;
    by rewrite Hp.
Qed.

(** A run in which the step returns [host001] twice. *)
Lemma routeOut_no_duplicate_egress_witness :
  routeOut_iter sampleOperand "step" sampleTimeouts 1
    (routeOut_loop sampleOperand "step" sampleTimeouts routeOut_init
       [(0, OutStepOut (Some host001) okEmitter calm)]).1
    (OutStepOut (Some host001) okEmitter calm) =
  (out_set_err (Errorf "step %s returned target %+v multiple times"
                  [AString "step"; ATarget host001])
     (routeOut_loop sampleOperand "step" sampleTimeouts routeOut_init
        [(0, OutStepOut (Some host001) okEmitter calm)]).1, Break).
Proof.
  refine (proj1 (proj2 (proj2 (proj2 (proj2
    (routeOut_no_duplicate_egress sampleOperand "step" sampleTimeouts
       [(0, OutStepOut (Some host001) okEmitter calm)] _ Continue eq_refl))))
    eq_refl 1 host001 okEmitter calm _)).
  eexists. vm_compute. reflexivity.
Defined.

(** ** Emitter errors *)

Section EmitterErrors.
Variable fmtOperand : bool -> ascii -> fmtArg -> string.
Variable stepLabel : string.
Variable timeouts : TestRunnerTimeouts.

Lemma routeIn_select_mute s1 s2 e :
  in_forget_log s1 = in_forget_log s2 ->
  in_forget_log (routeIn_select stepLabel s1 e) =
  in_forget_log (routeIn_select stepLabel s2 (muteIn e)).
Proof.
  destruct s1, s2. unfold in_forget_log; simpl. intros [= -> -> -> -> -> -> ->].
  destruct e as [|k ierr emit|[t|]]; simpl; try done.
  destruct (_ !! k); [|done]. by destruct ierr.
Qed.

Lemma routeIn_inject_forget now s1 s2 :
  in_forget_log s1 = in_forget_log s2 ->
  (routeIn_inject now s1).2 = (routeIn_inject now s2).2 ∧
  in_forget_log (routeIn_inject now s1).1 =
  in_forget_log (routeIn_inject now s2).1.
Proof.
  destruct s1, s2. unfold in_forget_log; simpl. intros [= -> -> -> -> -> -> ->].
  unfold routeIn_inject; simpl.
  repeat (case_match; simpl; try done).
Qed.

Lemma routeIn_enabled_mute s1 s2 e :
  in_forget_log s1 = in_forget_log s2 ->
  routeIn_enabled s1 e = routeIn_enabled s2 (muteIn e).
Proof.
  destruct s1, s2. unfold in_forget_log; simpl. intros [= -> -> -> -> -> -> ->].
  by destruct e.
Qed.

Lemma routeIn_loop_mute evs s1 s2 :
  in_forget_log s1 = in_forget_log s2 ->
  (routeIn_loop stepLabel s1 evs).2 =
  (routeIn_loop stepLabel s2 (muted muteIn evs)).2 ∧
  in_forget_log (routeIn_loop stepLabel s1 evs).1 =
  in_forget_log (routeIn_loop stepLabel s2 (muted muteIn evs)).1.
Proof.
  revert s1 s2. induction evs as [|[now e] evs IH]; intros s1 s2 Hs; simpl.
  - done.
  - rewrite <- (routeIn_enabled_mute s1 s2 e Hs).
    destruct (routeIn_enabled s1 e); [|by apply IH].
    unfold routeIn_iter.
    pose proof (routeIn_select_mute s1 s2 e Hs) as Hsel.
    destruct (routeIn_inject_forget now _ _ Hsel) as [Hc Hf].
    destruct (routeIn_inject now (routeIn_select stepLabel s1 e)) as [a c].
    destruct (routeIn_inject now (routeIn_select stepLabel s2 (muteIn e)))
      as [b c'].
    simpl in *. subst c'. destruct c; [by apply IH | done].
Qed.

Lemma routeOut_select_mute now s1 s2 e :
  out_forget_log s1 = out_forget_log s2 ->
  out_forget_log (routeOut_select fmtOperand stepLabel timeouts now s1 e) =
  out_forget_log
    (routeOut_select fmtOperand stepLabel timeouts now s2 (muteOut e)).
Proof.
  destruct s1, s2. unfold out_forget_log; simpl. intros [= -> -> -> -> -> ->].
  destruct e as [|[t|] emit w|[te|] emit w]; simpl; try done.
  - destruct (_ !! ID t); [done|].
    unfold out_forward, emitOutEvent; simpl. by destruct (emit _).
  - destruct (_ !! ID (TE_Target te)); [done|].
    unfold out_forward, emitOutEvent; simpl.
    destruct (TE_Err te); by destruct (emit _).
Qed.

Lemma routeOut_finish_forget s1 s2 :
  out_forget_log s1 = out_forget_log s2 ->
  (routeOut_finish s1).2 = (routeOut_finish s2).2 ∧
  out_forget_log (routeOut_finish s1).1 =
  out_forget_log (routeOut_finish s2).1.
Proof.
  destruct s1, s2. unfold out_forget_log; simpl. intros [= -> -> -> -> -> ->].
  unfold routeOut_finish; simpl.
  repeat (case_match; simpl; try done).
Qed.

Lemma routeOut_enabled_mute s1 s2 e :
  out_forget_log s1 = out_forget_log s2 ->
  routeOut_enabled s1 e = routeOut_enabled s2 (muteOut e).
Proof.
  destruct s1, s2. unfold out_forget_log; simpl. intros [= -> -> -> -> -> ->].
  by destruct e.
Qed.

Lemma routeOut_loop_mute evs s1 s2 :
  out_forget_log s1 = out_forget_log s2 ->
  (routeOut_loop fmtOperand stepLabel timeouts s1 evs).2 =
  (routeOut_loop fmtOperand stepLabel timeouts s2 (muted muteOut evs)).2 ∧
  out_forget_log (routeOut_loop fmtOperand stepLabel timeouts s1 evs).1 =
  out_forget_log
    (routeOut_loop fmtOperand stepLabel timeouts s2 (muted muteOut evs)).1.
Proof.
  revert s1 s2. induction evs as [|[now e] evs IH]; intros s1 s2 Hs; simpl.
  - done.
  - rewrite <- (routeOut_enabled_mute s1 s2 e Hs).
    destruct (routeOut_enabled s1 e); [|by apply IH].
    unfold routeOut_iter.
    pose proof (routeOut_select_mute now s1 s2 e Hs) as Hsel.
    destruct (routeOut_finish_forget _ _ Hsel) as [Hc Hf].
    destruct (routeOut_finish (routeOut_select _ _ _ now s1 e)) as [a c].
    destruct (routeOut_finish (routeOut_select _ _ _ now s2 (muteOut e)))
      as [b c'].
    simpl in *. subst c'. destruct c; [by apply IH | done..].
Qed.

Lemma routeIn_mute evs :
  routeIn stepLabel evs = routeIn stepLabel (muted muteIn evs).
Proof.
  unfold routeIn.
  destruct (routeIn_loop_mute evs routeIn_init routeIn_init eq_refl)
    as [Hc Hf].
  destruct (routeIn_loop stepLabel routeIn_init evs) as [a c].
  destruct (routeIn_loop stepLabel routeIn_init (muted muteIn evs)) as [b c'].
  simpl in *. subst c'. destruct c; [|done].
  unfold routeIn_return. destruct a, b. unfold in_forget_log in Hf.
  simpl in *. by injection Hf as -> -> -> -> -> -> ->.
Qed.

Lemma routeOut_mute evs :
  routeOut fmtOperand stepLabel timeouts evs =
  routeOut fmtOperand stepLabel timeouts (muted muteOut evs).
Proof.
  unfold routeOut.
  destruct (routeOut_loop_mute evs routeOut_init routeOut_init eq_refl)
    as [Hc Hf].
  destruct (routeOut_loop _ _ _ routeOut_init evs) as [a c].
  destruct (routeOut_loop _ _ _ routeOut_init (muted muteOut evs)) as [b c'].
  simpl in *. subst c'. destruct c; try done.
  unfold routeOut_return. destruct a, b. unfold out_forget_log in Hf.
  simpl in *. by injection Hf as -> -> -> -> -> ->.
Qed.
End EmitterErrors.

(** C9: an error returned by the emitter changes nothing but the log.  A run
    of the routing block and the run that differs from it only in that
    every emission succeeds leave their loops at the same iteration and in
    the same state up to the log (same error, same registered targets, same
    events handed to the emitter, same targets injected and forwarded, same
    channels closed), return the same values, and deliver the same result
    to the pipeline; and each failed emission of [TargetIn], [TargetInErr],
    [TargetOut] or [TargetErr] adds one warning to the log. *)
Theorem emitter_errors_are_only_logged
    (fmtOperand : bool -> ascii -> fmtArg -> string) (bundle : TestStepBundle)
    (timeouts : TestRunnerTimeouts)
    (evsIn : list (Time * routeInEvent)) (evsOut : list (Time * routeOutEvent))
    (resultCh : nat -> bool) (pk : nat -> nat) (start : nat) :
  ((routeIn_loop (TestStepLabel bundle) routeIn_init evsIn).2 =
   (routeIn_loop (TestStepLabel bundle) routeIn_init (muted muteIn evsIn)).2 ∧
   in_forget_log (routeIn_loop (TestStepLabel bundle) routeIn_init evsIn).1 =
   in_forget_log
     (routeIn_loop (TestStepLabel bundle) routeIn_init (muted muteIn evsIn)).1) ∧
  ((routeOut_loop fmtOperand (TestStepLabel bundle) timeouts routeOut_init
      evsOut).2 =
   (routeOut_loop fmtOperand (TestStepLabel bundle) timeouts routeOut_init
      (muted muteOut evsOut)).2 ∧
   out_forget_log
     (routeOut_loop fmtOperand (TestStepLabel bundle) timeouts routeOut_init
        evsOut).1 =
   out_forget_log
     (routeOut_loop fmtOperand (TestStepLabel bundle) timeouts routeOut_init
        (muted muteOut evsOut)).1) ∧
  routeIn (TestStepLabel bundle) evsIn =
  routeIn (TestStepLabel bundle) (muted muteIn evsIn) ∧
  routeOut fmtOperand (TestStepLabel bundle) timeouts evsOut =
  routeOut fmtOperand (TestStepLabel bundle) timeouts (muted muteOut evsOut) ∧
  route fmtOperand bundle timeouts evsIn evsOut resultCh pk start =
  route fmtOperand bundle timeouts (muted muteIn evsIn) (muted muteOut evsOut)
    resultCh pk start ∧
  (∀ s k t ierr emit,
     in_running s !! k = Some t ->
     is_Some (emit (mkEventData
                      (match ierr with
                       | Some _ => EventTargetInErr
                       | None => EventTargetIn
                       end) t None)) ->
     ∃ format args,
       in_log (routeIn_select (TestStepLabel bundle) s (InResult k ierr emit)) =
       in_log s ++ [Warnf format args]) ∧
  (∀ now s t emit w,
     out_egressTarget s !! ID t = None ->
     is_Some (emit (mkEventData EventTargetOut t None)) ->
     ∃ format args,
       out_log (routeOut_select fmtOperand (TestStepLabel bundle) timeouts now s
                  (OutStepOut (Some t) emit w)) =
       out_log s ++ [Warnf format args]) ∧
  (∀ now s te emit w,
     out_egressTarget s !! ID (TE_Target te) = None ->
     is_Some (emit (outEvent fmtOperand (TE_Target te) (TE_Err te))) ->
     ∃ format args,
       out_log (routeOut_select fmtOperand (TestStepLabel bundle) timeouts now s
                  (OutStepErr (Some te) emit w)) =
       out_log s ++ [Warnf format args]).
Proof.
  split; [apply routeIn_loop_mute; done|].
  split; [apply routeOut_loop_mute; done|].
  split; [apply routeIn_mute|]. split; [apply routeOut_mute|].
  split; [unfold route; by rewrite <- routeIn_mute, <- routeOut_mute|].
  split; [|split].
  - intros s k t ierr emit Hk [e He]. simpl. rewrite Hk.
    destruct ierr; simpl; rewrite He; eauto.
  - intros now s t emit w Hnew [e He]. simpl. rewrite Hnew.
    unfold out_forward, emitOutEvent; simpl. rewrite He. simpl. eauto.
  - intros now s te emit w Hnew [e He]. simpl. rewrite Hnew.
    unfold out_forward, emitOutEvent, outEvent in *; simpl.
    destruct (TE_Err te); simpl in *; rewrite He; simpl; eauto.
Qed.

(** A run in which every emission fails: the target is still forwarded and
    the routing block still ends without error. *)
Lemma emitter_errors_are_only_logged_witness :
  routeOut sampleOperand "step" sampleTimeouts
    [(0, OutStepOut (Some host001) failingEmitter calm);
     (1, OutStepOut None failingEmitter calm);
     (2, OutStepErr None failingEmitter calm)] = Some (1, None) ∧
  ∃ format args,
    out_log (routeOut_select sampleOperand "step" sampleTimeouts 0
               routeOut_init (OutStepOut (Some host001) failingEmitter calm)) =
    [Warnf format args].
Proof.
  pose proof (emitter_errors_are_only_logged sampleOperand (mkBundle "step")
    sampleTimeouts []
    [(0, OutStepOut (Some host001) failingEmitter calm);
     (1, OutStepOut None failingEmitter calm);
     (2, OutStepErr None failingEmitter calm)] (fun _ => true) (fun _ => 0) 0)
    as (_ & _ & _ & Hout & _ & _ & Hlog & _).
  split.
  - simpl in Hout. rewrite Hout. vm_compute. reflexivity.
  - apply (Hlog 0 routeOut_init host001 failingEmitter calm).
    + reflexivity.
    + eexists. reflexivity.
Defined.

(** ** route *)

Lemma routeIn_Some stepLabel evs n e :
  routeIn stepLabel evs = Some (n, e) ->
  routeIn_exit (routeIn_loop stepLabel routeIn_init evs).1 ∧
  routeIn_return (routeIn_loop stepLabel routeIn_init evs).1 = (n, e).
Proof.
  unfold routeIn.
  destruct (routeIn_loop stepLabel routeIn_init evs) as [s exited] eqn:E.
  destruct exited; [|done]. intros [= H]. split; [|done].
  by apply routeIn_loop_inv in E; [|apply routeIn_init_inv].
Qed.

Lemma routeOut_Some fmtOperand stepLabel timeouts evs n e :
  routeOut fmtOperand stepLabel timeouts evs = Some (n, e) ->
  routeOut_inv (routeOut_loop fmtOperand stepLabel timeouts routeOut_init evs).1 ∧
  routeOut_return
    (routeOut_loop fmtOperand stepLabel timeouts routeOut_init evs).1 = (n, e).
Proof.
  unfold routeOut.
  destruct (routeOut_loop _ _ _ routeOut_init evs) as [s c] eqn:E.
  destruct c; try done. intros [= H]. split; [|done].
  by apply routeOut_loop_inv in E as [? _]; try apply routeOut_init_inv.
Qed.

Lemma routingErr_spec stepLabel nin ein nout eout :
  routingErr stepLabel (nin, ein) (nout, eout) =
  firstErrorOrMismatch stepLabel nin ein nout eout.
Proof.
  unfold routingErr, firstErrorOrMismatch.
  destruct ein, eout; try done.
  case_bool_decide; destruct (Nat.eqb_spec nin nout); done.
Qed.

(** C2: when [routeIn] and [routeOut] both return, the routing error
    delivered to the pipeline is the first non-nil error of the two, taken
    in the order [routeIn], [routeOut], and
    when both are nil and the number of targets injected into the step
    differs from the number of targets received back from it, the
    target-count-mismatch error.  The two numbers are the sizes of the
    ingress and egress sets: the targets handed to the step (all the targets
    that arrived, their IDs being unique) and the targets that left it. *)
Theorem route_routing_error
    (fmtOperand : bool -> ascii -> fmtArg -> string) (bundle : TestStepBundle)
    (timeouts : TestRunnerTimeouts)
    (evsIn : list (Time * routeInEvent)) (evsOut : list (Time * routeOutEvent))
    (resultCh : nat -> bool) (pk : nat -> nat) (start : nat)
    (inTargets outTargets : nat) (errRouteIn errRouteOut : option error) :
  routeIn (TestStepLabel bundle) evsIn = Some (inTargets, errRouteIn) ->
  routeOut fmtOperand (TestStepLabel bundle) timeouts evsOut =
    Some (outTargets, errRouteOut) ->
  (route fmtOperand bundle timeouts evsIn evsOut resultCh pk start =
     Some (Delivered
             (mkRouteResult bundle
                (firstErrorOrMismatch (TestStepLabel bundle)
                   inTargets errRouteIn outTargets errRouteOut))) ∨
   route fmtOperand bundle timeouts evsIn evsOut resultCh pk start =
     Some (RoutePanicked "could not send routing block result")) ∧
  (resultCh start = true -> 0 < ticks (MessageTimeout timeouts) ->
   route fmtOperand bundle timeouts evsIn evsOut resultCh pk start =
     Some (Delivered
             (mkRouteResult bundle
                (firstErrorOrMismatch (TestStepLabel bundle)
                   inTargets errRouteIn outTargets errRouteOut)))) ∧
  (errRouteIn = None ->
   inTargets =
     size (in_ingressTarget
             (routeIn_loop (TestStepLabel bundle) routeIn_init evsIn).1) ∧
   injected (in_trace (routeIn_loop (TestStepLabel bundle) routeIn_init evsIn).1)
   = received (in_trace (routeIn_loop (TestStepLabel bundle) routeIn_init evsIn).1) ∧
   (NoDup (ID <$> received
             (in_trace (routeIn_loop (TestStepLabel bundle) routeIn_init evsIn).1)) ->
    inTargets =
      length (injected
                (in_trace
                   (routeIn_loop (TestStepLabel bundle) routeIn_init evsIn).1)))) ∧
  (errRouteOut = None ->
   outTargets =
     length (egressed
               (out_trace
                  (routeOut_loop fmtOperand (TestStepLabel bundle) timeouts
                     routeOut_init evsOut).1))).
Proof.
  intros Hin Hout.
  assert (∀ cs t,
    selectWait None resultCh pk (ticks (MessageTimeout timeouts)) start = (cs, t) ->
    route fmtOperand bundle timeouts evsIn evsOut resultCh pk start =
    Some (match cs with
          | TimeAfter => RoutePanicked "could not send routing block result"
          | _ => Delivered
                   (mkRouteResult bundle
                      (firstErrorOrMismatch (TestStepLabel bundle)
                         inTargets errRouteIn outTargets errRouteOut))
          end)) as Hroute.
  { intros cs t E. unfold route. rewrite Hin, Hout, E, routingErr_spec.
    by destruct cs. }
  split; [|split; [|split]].
  - destruct (selectWait None resultCh pk (ticks (MessageTimeout timeouts)) start)
      as [cs t].
    rewrite (Hroute _ _ eq_refl). destruct cs; auto.
  - intros Hr Hpos.
    apply (Hroute ChanSend start), selectWait_send; try done; intros; lia.
  - intros ->. apply routeIn_Some in Hin as [(_ & Hfifo & Hdom & Hx) Hret].
    unfold routeIn_return in Hret.
    destruct Hx as [[[e He] _]|(He & _ & _ & Htg & _)];
      rewrite He in Hret; [done|].
    injection Hret as <-. rewrite Htg in Hfifo. simpl in Hfifo.
    rewrite app_nil_r in Hfifo. split; [done|]. split; [done|].
    intros Hnd. rewrite <- size_dom, Hdom, size_list_to_set, length_fmap;
      [done|]. by rewrite <- Hfifo.
  - intros ->. apply routeOut_Some in Hout as [(Hdom & Hnd & _) Hret].
    unfold routeOut_return in Hret.
    destruct (out_err _); [done|]. injection Hret as <-.
    rewrite <- size_dom, Hdom, size_list_to_set, length_fmap; done.
Qed.

(** One target is injected, the step closes its outputs without returning
    it: the pipeline receives the target-count-mismatch error. *)
Lemma route_routing_error_witness :
  route sampleOperand (mkBundle "step") sampleTimeouts
    [(0, InRecv (Some host001)); (1, InResult 0 None okEmitter);
     (2, InRecv None)]
    [(3, OutStepOut None okEmitter calm); (4, OutStepErr None okEmitter calm)]
    (fun _ => true) (fun _ => 0) 5 =
  Some (Delivered
          (mkRouteResult (mkBundle "step")
             (Some (Errorf
                      "step %s completed but did not return all injected Targets (%d!=%d)"
                      [AString "step"; AInt 1; AInt 0])))).
Proof.
  refine (proj1 (proj2
    (route_routing_error sampleOperand (mkBundle "step") sampleTimeouts
       [(0, InRecv (Some host001)); (1, InResult 0 None okEmitter);
        (2, InRecv None)]
       [(3, OutStepOut None okEmitter calm); (4, OutStepErr None okEmitter calm)]
       (fun _ => true) (fun _ => 0) 5 1 0 None None _ _)) _ _).
  - vm_compute. reflexivity.
  - vm_compute. reflexivity.
  - reflexivity.
  - vm_compute. lia.
Defined.

(** ** The payload of [TargetErr] *)

Lemma htmlSafeSet_htmlFree b :
  negb ((byteVal b =? 38)%N || (byteVal b =? 60)%N || (byteVal b =? 62)%N) = true ->
  htmlSafeSet b = safeSet b.
Proof.
  unfold htmlSafeSet. intros H.
  destruct (byteVal b =? 38)%N, (byteVal b =? 60)%N, (byteVal b =? 62)%N;
    try discriminate. simpl. by rewrite !andb_true_r.
Qed.

(** On a message without [&], [<] and [>] the two encodings agree. *)
Lemma encodeRunes_htmlFree s :
  htmlFree s = true ->
  ∀ keep skip, encodeRunes true keep skip s = encodeRunes false keep skip s.
Proof.
  induction s as [|b rest IH]; [done|]. simpl htmlFree.
  intros [Hb Hrest]%andb_true_iff keep skip.
  specialize (IH Hrest).
  cbn [encodeRunes]. destruct skip as [|k].
  - destruct (byteVal b <? 128)%N.
    + rewrite (htmlSafeSet_htmlFree b Hb). simpl negb.
      rewrite andb_false_l, andb_true_l, orb_false_r, orb_diag.
      by rewrite IH.
    + destruct (DecodeRuneInString (String b rest)) as [c size].
      by rewrite !IH.
  - by rewrite IH.
Qed.

(** C1, as the code has it: for a target that failed in the step with error
    message [m], [emitOutEvent] hands to the emitter a [TargetErr] event for
    that target whose payload is the JSON object [{"Error": m}] as
    [json.Marshal] writes it, that is with HTML escaping on; it returns what
    the emitter returns.  The payload is the encoding without HTML escaping
    whenever [m] has none of the characters [&], [<] and [>].  In
    [routeOut] the event is emitted for every such target received on
    [stepErr] whose ID is not in the egress set yet. *)
Theorem emitOutEvent_TargetErr_payload
    (fmtOperand : bool -> ascii -> fmtArg -> string) (stepLabel : string)
    (timeouts : TestRunnerTimeouts) (emit : Emitter) (t : Target) (e : error) :
  (emitOutEvent fmtOperand emit t (Some e)).1.1 =
    mkEventData EventTargetErr t
      (Some (encodeErrPayload true (mkErrPayload (Error fmtOperand e)))) ∧
  (emitOutEvent fmtOperand emit t (Some e)).2 =
    emit (mkEventData EventTargetErr t
            (Some (encodeErrPayload true (mkErrPayload (Error fmtOperand e))))) ∧
  (htmlFree (Error fmtOperand e) = true ->
   encodeErrPayload true (mkErrPayload (Error fmtOperand e)) =
   encodeErrPayload false (mkErrPayload (Error fmtOperand e))) ∧
  (∀ now s te w,
     TE_Target te = t -> TE_Err te = Some e ->
     out_egressTarget s !! ID t = None ->
     ∃ sent,
       out_trace (routeOut_select fmtOperand stepLabel timeouts now s
                    (OutStepErr (Some te) emit w)) =
       out_trace s ++
       AEmit (mkEventData EventTargetErr t
                (Some (encodeErrPayload true
                         (mkErrPayload (Error fmtOperand e))))) :: sent).
Proof.
  split; [|split; [|split]].
  - unfold emitOutEvent. by destruct (emit _).
  - unfold emitOutEvent, jsonMarshal. by destruct (emit _).
  - intros H. unfold encodeErrPayload, encodeString. cbn [ErrPayload_Error].
    by rewrite encodeRunes_htmlFree.
  - intros now s te w <- He Hnew. simpl. rewrite Hnew.
    unfold out_forward, emitOutEvent. rewrite He.
    destruct (emit _); simpl; eauto.
Qed.

(** A step reports [host001] with the error "disk failure". *)
Lemma emitOutEvent_TargetErr_payload_witness :
  Payload (emitOutEvent sampleOperand okEmitter host001
             (Some (ErrorString "disk failure"))).1.1 =
  Some (encodeErrPayload false (mkErrPayload "disk failure")).
Proof.
  pose proof (emitOutEvent_TargetErr_payload sampleOperand "step" sampleTimeouts
    okEmitter host001 (ErrorString "disk failure")) as (Hev & _ & Hfree & _).
  exact (eq_trans (f_equal Payload Hev) (f_equal Some (Hfree eq_refl))).
Defined.

(** C1 as stated fails: the payload of the error message [a<b] is written
    with the escape for [<], not as the encoding without HTML escaping
    has it. *)
Lemma emitOutEvent_payload_escapes_html :
  Payload (emitOutEvent sampleOperand okEmitter host001
             (Some (ErrorString "a<b"))).1.1 =
  Some ("{" +:+ String quote "Error" +:+ String quote ":" +:+
        String quote "a\u003cb" +:+ String quote "}") ∧
  Payload (emitOutEvent sampleOperand okEmitter host001
             (Some (ErrorString "a<b"))).1.1 ≠
  Some (encodeErrPayload false (mkErrPayload "a<b")).
Proof. split; [reflexivity | vm_compute; discriminate]. Qed.

(** ** TestRunner.Run *)

Lemma Run_loop_errCh completed err rest :
  Run_loop (map RunCompleted completed ++ RunErrCh err :: rest) = Some err.
Proof. induction completed as [|t completed IH]; simpl; done. Qed.

Lemma Run_loop_waits completed :
  Run_loop (map RunCompleted completed) = None.
Proof. induction completed as [|t completed IH]; simpl; done. Qed.

(** C8, as the code has it: with no step bundle [Run] returns the error "no
    steps to run for test" and neither builds nor runs a pipeline; with at
    least one it builds and initialises the pipeline, starts the injection
    of the targets and the run of the pipeline, and returns what the run of
    the pipeline returned, however many completed targets it saw before;
    as long as the pipeline has not returned, [Run] does not return. *)
Theorem Run_returns_pipeline_error
    (fmtOperand : bool -> ascii -> fmtArg -> string)
    (bundles : list TestStepBundle) (targets : list Target) :
  (∀ evs,
     Run [] targets evs =
       ([], Some (Some (Errorf "no steps to run for test" []))) ∧
     Error fmtOperand (Errorf "no steps to run for test" []) =
       "no steps to run for test") ∧
  (bundles ≠ [] ->
   ∀ completed,
     (∀ err rest,
        Run bundles targets (map RunCompleted completed ++ RunErrCh err :: rest) =
          ([ANewPipeline bundles; AInitPipeline; AGoInject targets;
            AGoRunPipeline], Some err)) ∧
     Run bundles targets (map RunCompleted completed) =
       ([ANewPipeline bundles; AInitPipeline; AGoInject targets;
         AGoRunPipeline], None)).
Proof.
  split; [done|]. intros Hne completed. unfold Run.
  destruct bundles; [done|]. simpl length. simpl Nat.eqb. cbv iota.
  split; [intros err rest; by rewrite Run_loop_errCh|].
  by rewrite Run_loop_waits.
Qed.

(** One step, two completed targets, then the pipeline returns an error. *)
Lemma Run_returns_pipeline_error_witness :
  Run [mkBundle "step"] [host001; host002]
    [RunCompleted host001; RunCompleted host002;
     RunErrCh (Some (ErrorString "step panicked"))] =
  ([ANewPipeline [mkBundle "step"]; AInitPipeline;
    AGoInject [host001; host002]; AGoRunPipeline],
   Some (Some (ErrorString "step panicked"))).
Proof.
  refine (proj1 (proj2
    (Run_returns_pipeline_error sampleOperand [mkBundle "step"]
       [host001; host002]) _ [host001; host002])
    (Some (ErrorString "step panicked")) []).
  discriminate.
Defined.

(** C8 as stated fails: the error returned for an empty list of steps is
    not the error "no steps to run". *)
Lemma Run_no_steps_message :
  (Run [] [host001] []).2 =
    Some (Some (Errorf "no steps to run for test" [])) ∧
  Error sampleOperand (Errorf "no steps to run for test" []) ≠
    "no steps to run".
Proof. split; [reflexivity | vm_compute; discriminate]. Qed.

(** ** Runs of the target writer *)

(** Three calls of [writeTimeout] with a timeout of three ticks: nobody
    receives; the context is cancelled at tick 1; a receiver arrives at
    tick 2. *)
Lemma writeTimeout_contract_witness :
  writeTimeout (mkSched None (fun _ => 0)) (fun _ => false) 0 host001 3%Z =
    mkWriteResult
      (Some (Errorf "timeout (%v) while writing target %+v"
               [ADuration 3%Z; ATarget host001])) [] 3 ∧
  writeTimeout (mkSched (Some 1) (fun _ => 0)) (fun _ => false) 0 host001 3%Z =
    mkWriteResult None [] 1 ∧
  writeTimeout (mkSched None (fun _ => 0)) (fun u => 2 <=? u) 0 host001 3%Z =
    mkWriteResult None [host001] 2.
Proof.
  split; [|split].
  - destruct (writeTimeout_contract (mkSched None (fun _ => 0)) (fun _ => false)
                0 host001 (mkTargetError host001 None) 3%Z) as [(H & _) _].
    apply H; [intros; reflexivity | reflexivity].
  - destruct (writeTimeout_contract (mkSched (Some 1) (fun _ => 0))
                (fun _ => false) 0 host001 (mkTargetError host001 None) 3%Z)
      as [(_ & H & _) _].
    apply (H 1); [reflexivity | vm_compute; lia | intros; reflexivity].
  - destruct (writeTimeout_contract (mkSched None (fun _ => 0))
                (fun u => 2 <=? u) 0 host001 (mkTargetError host001 None) 3%Z)
      as [(_ & _ & H & _) _].
    apply (H 2); [vm_compute; lia | reflexivity | | reflexivity].
    intros u' Hu'. apply Nat.leb_gt. lia.
Defined.

(** The step takes the target at once, nobody reads the result and the
    context is never cancelled: the writer panics when the message timeout
    (five ticks) has passed. *)
Lemma writeTargetWithResult_posts_or_panics_witness :
  inj_outcome
    (writeTargetWithResult sampleTimeouts (mkSched None (fun _ => 0))
       (fun _ => true) (fun _ => false) 0 host001) =
  Panicked "timeout while writing result for target %+v after %v"
    [ATarget host001; ADuration 5%Z] ∧
  inj_end
    (writeTargetWithResult sampleTimeouts (mkSched None (fun _ => 0))
       (fun _ => true) (fun _ => false) 0 host001) = 5.
Proof.
  destruct (writeTargetWithResult_posts_or_panics sampleTimeouts
              (mkSched None (fun _ => 0)) (fun _ => true) (fun _ => false) 0
              host001) as (_ & _ & _ & _ & H).
  apply H; [intros; reflexivity | reflexivity].
Defined.

(** The context is cancelled from the start and nobody reads the result:
    the writer returns at once, nothing posted, no panic. *)
Lemma writeTargetWithResult_drops_on_cancel_witness :
  inj_outcome
    (writeTargetWithResult sampleTimeouts (mkSched (Some 0) (fun _ => 0))
       (fun _ => false) (fun _ => false) 0 host001) = Dropped ∧
  inj_end
    (writeTargetWithResult sampleTimeouts (mkSched (Some 0) (fun _ => 0))
       (fun _ => false) (fun _ => false) 0 host001) = 0.
Proof.
  apply (writeTargetWithResult_drops_on_cancel sampleTimeouts
           (mkSched (Some 0) (fun _ => 0)) (fun _ => false) (fun _ => false) 0
           host001 0).
  - reflexivity.
  - vm_compute. lia.
  - intros; reflexivity.
Defined.

(** ** State *)

Lemma IncompleteSteps_foldl r bundles acc :
  foldl (fun incompleteSteps bundle =>
           match completedSteps r !! TestStepLabel bundle with
           | None => incompleteSteps ++ [TestStepLabel bundle]
           | Some _ => incompleteSteps
           end) acc bundles =
  acc ++ filter (fun l => l ∉ dom (completedSteps r)) (TestStepLabel <$> bundles).
Proof.
  revert acc. induction bundles as [|b bundles IH]; intros acc; simpl.
  - by rewrite app_nil_r.
  - rewrite IH, filter_cons.
    destruct (completedSteps r !! TestStepLabel b) as [e|] eqn:E.
    + rewrite decide_False; [done|].
      intros Hn. apply Hn, elem_of_dom. eauto.
    + rewrite decide_True by (by apply not_elem_of_dom).
      by rewrite <- app_assoc.
Qed.

Lemma IncompleteSteps_unfold r bundles :
  IncompleteSteps r bundles =
  filter (fun l => l ∉ dom (completedSteps r)) (TestStepLabel <$> bundles).
Proof. unfold IncompleteSteps. by rewrite IncompleteSteps_foldl. Qed.

(** X1: [IncompleteSteps] returns the labels of the bundles that have no
    entry in [completedSteps], in the order of the bundles and as often as
    they occur there; setting the result of a routing block or of a target
    does not change them. *)
Theorem IncompleteSteps_filter (r : State) (bundles : list TestStepBundle)
    (label : string) (target : positive) (err : option error) :
  IncompleteSteps r bundles =
    filter (fun l => l ∉ dom (completedSteps r)) (TestStepLabel <$> bundles) ∧
  IncompleteSteps r bundles `sublist_of` (TestStepLabel <$> bundles) ∧
  IncompleteSteps (SetRouting label err r) bundles = IncompleteSteps r bundles ∧
  IncompleteSteps (SetTarget target err r) bundles = IncompleteSteps r bundles.
Proof.
  rewrite !IncompleteSteps_unfold. repeat split. apply sublist_filter.
Qed.

(** X2: setting the result of a step, be it an error or nil, takes the
    label of that step out of the incomplete steps and leaves the others as
    they were. *)
Theorem IncompleteSteps_SetStep (r : State) (bundles : list TestStepBundle)
    (testStepLabel : string) (err : option error) :
  IncompleteSteps (SetStep testStepLabel err r) bundles =
  filter (fun l => l ≠ testStepLabel) (IncompleteSteps r bundles).
Proof.
  rewrite !IncompleteSteps_unfold, list_filter_filter. simpl.
  apply list_filter_iff. intros l. rewrite dom_insert_L.
  rewrite not_elem_of_union, not_elem_of_singleton. tauto.
Qed.

(** X3: no step is reported incomplete exactly when every bundle has an
    entry in [completedSteps]; on a new state every step is incomplete. *)
Theorem IncompleteSteps_nil_iff (r : State) (bundles : list TestStepBundle) :
  (IncompleteSteps r bundles = [] <->
   ∀ b, b ∈ bundles -> is_Some (completedSteps r !! TestStepLabel b)) ∧
  IncompleteSteps NewState bundles = TestStepLabel <$> bundles.
Proof.
  rewrite !IncompleteSteps_unfold. split; [split|].
  - intros Hnil b Hb. apply elem_of_dom.
    destruct (decide (TestStepLabel b ∈ dom (completedSteps r))) as [|Hn];
      [done|].
    exfalso. eapply (filter_nil_not_elem_of _ _ (TestStepLabel b) Hnil Hn).
    apply list_elem_of_fmap. eauto.
  - intros Hall. induction bundles as [|b bundles IH]; [done|].
    rewrite fmap_cons, filter_cons, decide_False.
    + apply IH. intros b' Hb'. apply Hall. by right.
    + intros Hn. apply Hn, elem_of_dom, Hall. by left.
  - simpl. induction bundles as [|b bundles IH]; [done|].
    rewrite fmap_cons, filter_cons, decide_True, IH; [done|].
    rewrite dom_empty_L. apply not_elem_of_empty.
Qed.

(** ** The injection goroutine of [Run] *)

Lemma writeTimeout_cases sc ch start t d :
  let w := writeTimeout sc ch start t d in
  start <= wr_end w <= start + ticks d ∧
  (∀ u, start <= u < wr_end w -> cancelled (cancelAt sc) u = false ∧ ch u = false) ∧
  (wr_sent w = [] ∧ wr_err w = None ∧ cancelled (cancelAt sc) (wr_end w) = true ∨
   wr_sent w = [t] ∧ wr_err w = None ∧ ch (wr_end w) = true ∨
   wr_sent w = [] ∧
   wr_err w = Some (Errorf "timeout (%v) while writing target %+v"
                      [ADuration d; ATarget t]) ∧
   wr_end w = start + ticks d).
Proof.
  unfold writeTimeout.
  destruct (selectWait (cancelAt sc) ch (pick sc) (ticks d) start) as [cs t']
    eqn:E.
  apply selectWait_spec in E as (Hb & Hq & Hcs).
  destruct cs; simpl; auto 10.
Qed.

(** X4: the injection goroutine delivers every target at most once and in
    the order of the list, never retries a target whose write failed, and
    fails only with the timeout error of that target. *)
Theorem injectTargets_at_most_once (timeouts : TestRunnerTimeouts) (sc : Sched)
    (inputChannel : nat -> bool) (start : nat) (targets : list Target) :
  (injectTargets timeouts sc inputChannel start targets).1.1
    `sublist_of` targets ∧
  (injectTargets timeouts sc inputChannel start targets).1.2.*1
    `sublist_of` targets ∧
  length (injectTargets timeouts sc inputChannel start targets).1.1 +
  length (injectTargets timeouts sc inputChannel start targets).1.2
    <= length targets ∧
  (∀ t e,
     (t, e) ∈ (injectTargets timeouts sc inputChannel start targets).1.2 ->
     e = Errorf "timeout (%v) while writing target %+v"
           [ADuration (MessageTimeout timeouts); ATarget t]).
Proof.
  revert start. induction targets as [|t targets IH]; intros start; simpl.
  - repeat split; try done. intros t e H. by apply elem_of_nil in H.
  - pose proof (writeTimeout_cases sc inputChannel start t
                  (MessageTimeout timeouts)) as (_ & _ & Hw).
    simpl in Hw.
    specialize (IH (wr_end (writeTimeout sc inputChannel start t
                              (MessageTimeout timeouts)))).
    destruct (injectTargets _ _ _ _ targets) as [[d f] e]. simpl in *.
    destruct IH as (Hd & Hf & Hlen & He).
    destruct Hw as [(-> & -> & _)|[(-> & -> & _)|(-> & -> & _)]]; simpl.
    + repeat split; try (by apply sublist_cons); try lia. done.
    + repeat split; try (by apply sublist_cons); try lia.
      * by apply sublist_skip.
      * done.
    + repeat split; try (by apply sublist_cons); try lia.
      * by apply sublist_skip.
      * intros t' e' [[= -> ->]|H]%elem_of_cons; [done|]. by apply He.
Qed.

(** X5: the injection goroutine closes the input channel no later than one
    message timeout per target after it started. *)
Theorem injectTargets_bounded (timeouts : TestRunnerTimeouts) (sc : Sched)
    (inputChannel : nat -> bool) (start : nat) (targets : list Target) :
  start <= (injectTargets timeouts sc inputChannel start targets).2
        <= start + length targets * ticks (MessageTimeout timeouts).
Proof.
  revert start. induction targets as [|t targets IH]; intros start; simpl.
  - lia.
  - pose proof (writeTimeout_cases sc inputChannel start t
                  (MessageTimeout timeouts)) as (Hb & _).
    simpl in Hb.
    specialize (IH (wr_end (writeTimeout sc inputChannel start t
                              (MessageTimeout timeouts)))).
    destruct (injectTargets _ _ _ _ targets) as [[d f] e]. simpl in *. lia.
Qed.

(** X6: when the first routing block is always ready to take a target, the
    context is not cancelled and the message timeout is positive, every
    target is delivered, in order, and no write fails. *)
Theorem injectTargets_all_delivered (timeouts : TestRunnerTimeouts) (sc : Sched)
    (inputChannel : nat -> bool) (start : nat) (targets : list Target) :
  (∀ u, start <= u -> inputChannel u = true) ->
  cancelAt sc = None ->
  0 < ticks (MessageTimeout timeouts) ->
  injectTargets timeouts sc inputChannel start targets = (targets, [], start).
Proof.
  intros Hch Hc Hpos. induction targets as [|t targets IH]; simpl; [done|].
  unfold writeTimeout.
  rewrite (selectWait_send _ _ _ _ _ start); try done.
  - simpl. by rewrite IH.
  - lia.
  - by apply Hch.
  - intros; lia.
  - by rewrite Hc.
Qed.

(** X7: when nobody ever takes a target and the context is not cancelled,
    the write of every target times out, nothing is delivered, and the
    channel is closed after one message timeout per target. *)
Theorem injectTargets_nobody_listens (timeouts : TestRunnerTimeouts)
    (sc : Sched) (inputChannel : nat -> bool) (start : nat)
    (targets : list Target) :
  (∀ u, inputChannel u = false) ->
  cancelAt sc = None ->
  (injectTargets timeouts sc inputChannel start targets).1.1 = [] ∧
  (injectTargets timeouts sc inputChannel start targets).1.2.*1 = targets ∧
  (injectTargets timeouts sc inputChannel start targets).2 =
    start + length targets * ticks (MessageTimeout timeouts).
Proof.
  intros Hch Hc. revert start.
  induction targets as [|t targets IH]; intros start; simpl.
  - repeat split; lia.
  - unfold writeTimeout. rewrite selectWait_timer; [|done|by rewrite Hc].
    simpl.
    specialize (IH (start + ticks (MessageTimeout timeouts))).
    destruct (injectTargets _ _ _ _ targets) as [[d f] e]. simpl in *.
    destruct IH as (Hd & Hf & He). split; [done|]. split; [by f_equal|]. lia.
Qed.

Lemma selectWait_after_cancel k recv pk left t cs t' :
  selectWait (Some k) recv pk left t = (cs, t') ->
  t' <= t `max` k ∧ (k <= t -> 0 < left -> cs ≠ TimeAfter).
Proof.
  intros E. apply selectWait_spec in E as (Hb & Hq & Hcs).
  assert (t' <= t `max` k) as Hle.
  { destruct (decide (t' <= t `max` k)); [done|].
    destruct (Hq (t `max` k)) as [Hc _]; [lia|].
    simpl in Hc. apply Nat.leb_gt in Hc. lia. }
  split; [done|]. intros Hk Hpos ->. lia.
Qed.

Lemma writeTimeout_after_cancel sc ch start t d k :
  cancelAt sc = Some k ->
  wr_end (writeTimeout sc ch start t d) <= start `max` k ∧
  (k <= start -> 0 < ticks d ->
   wr_err (writeTimeout sc ch start t d) = None ∧
   wr_end (writeTimeout sc ch start t d) = start).
Proof.
  intros Hc. unfold writeTimeout. rewrite Hc.
  destruct (selectWait (Some k) ch (pick sc) (ticks d) start) as [cs t']
    eqn:E.
  pose proof (selectWait_spec _ _ _ _ _ _ _ E) as (Hb & _).
  apply selectWait_after_cancel in E as [Hle Hnt].
  split; [by destruct cs|]. intros Hk Hpos. specialize (Hnt Hk Hpos).
  destruct cs; simpl; try done; split; try done; lia.
Qed.

(** X8: once the context is cancelled the injection goroutine does not wait
    any more: it closes the input channel by the tick of the cancellation
    (at once, if it starts later), and when the context is cancelled before
    it starts and the message timeout is positive, no write times out. *)
Theorem injectTargets_cancelled (timeouts : TestRunnerTimeouts) (sc : Sched)
    (inputChannel : nat -> bool) (start : nat) (targets : list Target)
    (k : nat) :
  cancelAt sc = Some k ->
  (injectTargets timeouts sc inputChannel start targets).2 <= start `max` k ∧
  (k <= start -> 0 < ticks (MessageTimeout timeouts) ->
   (injectTargets timeouts sc inputChannel start targets).1.2 = [] ∧
   (injectTargets timeouts sc inputChannel start targets).2 = start).
Proof.
  intros Hc. revert start.
  induction targets as [|t targets IH]; intros start; simpl.
  - split; [lia | done].
  - pose proof (writeTimeout_after_cancel sc inputChannel start t
                  (MessageTimeout timeouts) k Hc) as [Hle Hw].
    specialize (IH (wr_end (writeTimeout sc inputChannel start t
                              (MessageTimeout timeouts)))).
    destruct (injectTargets _ _ _ _ targets) as [[d f] e]. simpl in *.
    destruct IH as [IH1 IH2]. split; [lia|].
    intros Hk Hpos. destruct (Hw Hk Hpos) as [Herr Hend].
    rewrite Herr, Hend in *. simpl. by apply IH2.
Qed.

(** Two targets, a routing block that listens, no cancellation. *)
Lemma injectTargets_all_delivered_witness :
  injectTargets sampleTimeouts (mkSched None (fun _ => 0)) (fun _ => true) 0
    [host001; host002] = ([host001; host002], [], 0).
Proof.
  apply injectTargets_all_delivered;
    [intros; reflexivity | reflexivity | vm_compute; lia].
Defined.

(** Two targets, nobody listens: both writes time out, after 5 ticks each. *)
Lemma injectTargets_nobody_listens_witness :
  (injectTargets sampleTimeouts (mkSched None (fun _ => 0)) (fun _ => false) 0
     [host001; host002]).1.1 = [] ∧
  (injectTargets sampleTimeouts (mkSched None (fun _ => 0)) (fun _ => false) 0
     [host001; host002]).1.2.*1 = [host001; host002] ∧
  (injectTargets sampleTimeouts (mkSched None (fun _ => 0)) (fun _ => false) 0
     [host001; host002]).2 = 10.
Proof.
  apply (injectTargets_nobody_listens sampleTimeouts (mkSched None (fun _ => 0))
           (fun _ => false) 0 [host001; host002]);
    [intros; reflexivity | reflexivity].
Defined.

(** Two targets, the context is cancelled at tick 3 and nobody listens: the
    channel is closed by tick 3. *)
Lemma injectTargets_cancelled_witness :
  (injectTargets sampleTimeouts (mkSched (Some 3) (fun _ => 0)) (fun _ => false)
     0 [host001; host002]).2 <= 3.
Proof.
  apply (injectTargets_cancelled sampleTimeouts (mkSched (Some 3) (fun _ => 0))
           (fun _ => false) 0 [host001; host002] 3 eq_refl).
Defined.

(** ** routeOut: closing of [routeOut] and forwarding *)

Section RouteOutMore.
Variable fmtOperand : bool -> ascii -> fmtArg -> string.
Variable stepLabel : string.
Variable timeouts : TestRunnerTimeouts.

Lemma closesRouteOut_app tr tr' :
  closesRouteOut (tr ++ tr') = closesRouteOut tr + closesRouteOut tr'.
Proof. unfold closesRouteOut. by rewrite List.filter_app, length_app. Qed.

Lemma closesRouteOut_sends {A} (sent : A -> action) l :
  (∀ x, isCloseRouteOut (sent x) = false) ->
  closesRouteOut (map sent l) = 0.
Proof.
  intros Hs. unfold closesRouteOut. induction l as [|x l IH]; simpl; [done|].
  by rewrite Hs.
Qed.

Lemma out_forward_closes {A} now t emitted w (wr : writeResult A) sent pf pa s :
  (∀ x, isCloseRouteOut (sent x) = false) ->
  closesRouteOut (out_trace (out_forward now t emitted w wr sent pf pa s)) =
  closesRouteOut (out_trace s).
Proof.
  intros Hs. destruct emitted as [[ev logs] ret]. unfold out_forward; simpl.
  change (AEmit ev :: ?l) with ([AEmit ev] ++ l).
  rewrite !closesRouteOut_app, closesRouteOut_sends by done.
  unfold closesRouteOut; simpl. lia.
Qed.

Lemma routeOut_select_closes now s e :
  closesRouteOut
    (out_trace (routeOut_select fmtOperand stepLabel timeouts now s e)) =
  closesRouteOut (out_trace s).
Proof.
  destruct e as [|[t|] emit w|[te|] emit w]; cbn [routeOut_select]; try done.
  - destruct (out_egressTarget s !! ID t); [done|].
    by apply out_forward_closes.
  - destruct (out_egressTarget s !! ID (TE_Target te)); [done|].
    by apply out_forward_closes.
Qed.

(** How the loop stands with respect to the closing of [routeOut]. *)
Lemma routeOut_loop_closes evs s s' c :
  closesRouteOut (out_trace s) = 0 ->
  routeOut_loop fmtOperand stepLabel timeouts s evs = (s', c) ->
  match c with
  | Continue => closesRouteOut (out_trace s') = 0
  | Crash => closesRouteOut (out_trace s') = 0 ∧ is_Some (out_panic s')
  | Break =>
      out_panic s' = None ∧
      (is_Some (out_err s') ∧ closesRouteOut (out_trace s') = 0 ∨
       out_err s' = None ∧ closesRouteOut (out_trace s') = 1 ∧
       out_stepOut_open s' = false ∧ out_stepErr_open s' = false ∧
       ∃ tr, out_trace s' = tr ++ [ACloseRouteOut])
  end.
Proof.
  revert s. induction evs as [|[now e] evs IH]; intros s H0; simpl.
  - by intros [= <- <-].
  - destruct (routeOut_enabled s e); [|by apply IH].
    pose proof (routeOut_select_closes now s e) as Hsel.
    unfold routeOut_iter, routeOut_finish.
    destruct (routeOut_select _ _ _ now s e) as [so se eg err tr lg pn].
    simpl in *. rewrite H0 in Hsel.
    destruct pn as [p|]; [intros [= <- <-]; simpl; eauto|].
    destruct err as [e'|]; [intros [= <- <-]; simpl; eauto|].
    destruct se, so; simpl; try (by apply IH).
    intros [= <- <-]. simpl. split; [done|]. right.
    rewrite closesRouteOut_app, Hsel. repeat split; eauto.
Qed.

(** X9: [routeOut] closes the [routeOut] channel at most once: exactly when
    it leaves its loop without error, which it does only after [stepOut] and
    [stepErr] were both closed, and as its last action; a run that ends
    with an error or a panic leaves the channel open. *)
Theorem routeOut_closes_routeOut (evs : list (Time * routeOutEvent))
    (s : routeOutState) (c : loopCtl) :
  routeOut_loop fmtOperand stepLabel timeouts routeOut_init evs = (s, c) ->
  closesRouteOut (out_trace s) <= 1 ∧
  (closesRouteOut (out_trace s) = 1 <-> c = Break ∧ out_err s = None) ∧
  (closesRouteOut (out_trace s) = 1 ->
   out_stepOut_open s = false ∧ out_stepErr_open s = false ∧
   ∃ tr, out_trace s = tr ++ [ACloseRouteOut]).
Proof.
  intros E. apply routeOut_loop_closes in E; [|done].
  destruct c.
  - rewrite E. repeat split; try lia; try done. by intros [[=] _].
  - destruct E as [_ [[[e He] Hc]|(He & Hc & Hrest)]].
    + rewrite Hc, He. repeat split; try lia; try done. by intros [_ [=]].
    + rewrite Hc. split; [lia|]. split; [done|]. done.
  - destruct E as [Hc _]. rewrite Hc.
    repeat split; try lia; try done. by intros [[=] _].
Qed.

Lemma writeTimeout_uncancelled sc ch start t d :
  cancelAt sc = None ->
  wr_sent (writeTimeout sc ch start t d) = [t] ∧
  wr_err (writeTimeout sc ch start t d) = None ∨
  wr_sent (writeTimeout sc ch start t d) = [] ∧
  is_Some (wr_err (writeTimeout sc ch start t d)).
Proof.
  intros Hc. unfold writeTimeout. rewrite Hc.
  destruct (selectWait None ch (pick sc) (ticks d) start) as [cs t'] eqn:E.
  apply selectWait_spec in E as (_ & _ & E).
  destruct cs; simpl; eauto. done.
Qed.

Lemma writeTargetError_uncancelled sc ch start te d :
  cancelAt sc = None ->
  wr_sent (writeTargetError sc ch start te d) = [te] ∧
  wr_err (writeTargetError sc ch start te d) = None ∨
  wr_sent (writeTargetError sc ch start te d) = [] ∧
  is_Some (wr_err (writeTargetError sc ch start te d)).
Proof.
  intros Hc. unfold writeTargetError. rewrite Hc.
  destruct (selectWait None ch (pick sc) (ticks d) start) as [cs t'] eqn:E.
  apply selectWait_spec in E as (_ & _ & E).
  destruct cs; simpl; eauto. done.
Qed.

Lemma out_forward_uncancelled {A} now t emitted w (wr : writeResult A)
    sent tgt pf pa s (x : A) :
  out_panic s = None ->
  forwarded (out_trace s) = egressed (out_trace s) ->
  (wr_sent wr = [x] ∧ wr_err wr = None ∨ wr_sent wr = [] ∧ is_Some (wr_err wr)) ->
  tgt x = ED_Target emitted.1.1 ->
  (∀ y, match sent y with AEmit _ => False | _ => True end) ->
  (∀ y, omap (fun a =>
                match a with
                | ASendRouteOut t => Some t
                | ASendTargetErr te => Some (TE_Target te)
                | _ => None
                end) [sent y] = [tgt y]) ->
  forwarded_or_panicked (out_forward now t emitted w wr sent pf pa s).
Proof.
  intros Hp Hfe Hwr Htgt Hs1 Hs2. destruct emitted as [[ev logs] ret].
  unfold forwarded_or_panicked, out_forward; simpl in *.
  rewrite egressed_forward, (forwarded_forward _ _ _ tgt) by done.
  destruct Hwr as [[-> ->]|[-> [e ->]]]; simpl.
  - left. by rewrite Hp, Hfe, Htgt.
  - right. split; [eauto|]. exists (ED_Target ev). by rewrite app_nil_r, Hfe.
Qed.

Lemma routeOut_select_forwarded now s e :
  uncancelled e ->
  out_panic s = None ->
  forwarded (out_trace s) = egressed (out_trace s) ->
  forwarded_or_panicked (routeOut_select fmtOperand stepLabel timeouts now s e).
Proof.
  intros Hu Hp Hfe.
  destruct e as [|[t|] emit w|[te|] emit w]; simpl in *;
    try (by left).
  - destruct (out_egressTarget s !! ID t); [by left|].
    apply (out_forward_uncancelled _ _ _ _ _ _ id _ _ _ t); auto.
    + by apply writeTimeout_uncancelled.
    + symmetry. exact (emitOutEvent_target fmtOperand emit t None).
  - destruct (out_egressTarget s !! ID (TE_Target te)); [by left|].
    apply (out_forward_uncancelled _ _ _ _ _ _ TE_Target _ _ _ te); auto.
    + by apply writeTargetError_uncancelled.
    + symmetry.
      exact (emitOutEvent_target fmtOperand emit (TE_Target te) (TE_Err te)).
Qed.

Lemma routeOut_loop_forwarded evs s s' c :
  Forall (fun ne => uncancelled ne.2) evs ->
  out_panic s = None ->
  forwarded (out_trace s) = egressed (out_trace s) ->
  routeOut_loop fmtOperand stepLabel timeouts s evs = (s', c) ->
  forwarded_or_panicked s' ∧ (c = Crash <-> is_Some (out_panic s')).
Proof.
  intros Hall. revert s.
  induction Hall as [|[now e] evs Hu Hall IH]; intros s Hp Hfe; simpl.
  - intros [= <- <-]. split; [by left|]. rewrite Hp. split; [done|].
    by intros [? [=]].
  - destruct (routeOut_enabled s e); [|by apply IH].
    pose proof (routeOut_select_forwarded now s e Hu Hp Hfe) as Hsel.
    unfold routeOut_iter, routeOut_finish.
    destruct (routeOut_select _ _ _ now s e) as [so se eg err tr lg pn].
    unfold forwarded_or_panicked in Hsel. simpl in *.
    destruct pn as [p|].
    { intros [= <- <-]. split; [exact Hsel|]. simpl. split; eauto. }
    destruct Hsel as [[_ Hsel]|[[? [=]] _]].
    destruct err as [e'|].
    { intros [= <- <-]. split; [by left|]. simpl. split; [done|].
      by intros [? [=]]. }
    destruct se, so; simpl; try (by apply IH).
    intros [= <- <-]. split.
    + left. split; [done|]. simpl. unfold forwarded, egressed in *.
      rewrite !omap_app. simpl. by rewrite !app_nil_r.
    + simpl. split; [done|]. by intros [? [=]].
Qed.

(** X10: as long as the context of the forwarding writes is not cancelled,
    [routeOut] loses no target: every target that left the step was
    forwarded, in the same order, to the next routing block or to the test
    runner, unless the process was aborted, and then the only target not
    forwarded is the last one that left the step. *)
Theorem routeOut_forwards_all (evs : list (Time * routeOutEvent))
    (s : routeOutState) (c : loopCtl) :
  Forall (fun ne => uncancelled ne.2) evs ->
  routeOut_loop fmtOperand stepLabel timeouts routeOut_init evs = (s, c) ->
  (c ≠ Crash -> forwarded (out_trace s) = egressed (out_trace s)) ∧
  (c = Crash ->
   ∃ t, egressed (out_trace s) = forwarded (out_trace s) ++ [t]).
Proof.
  intros Hall E.
  apply routeOut_loop_forwarded in E as [Hfp Hc]; try done.
  split.
  - intros Hn. destruct Hfp as [[_ H]|[Hp _]]; [done|].
    by apply Hc in Hp.
  - intros Hcr. apply Hc in Hcr as [p Hp].
    destruct Hfp as [[Hp' _]|[_ H]]; [congruence | done].
Qed.

(** X11: a target that the step reports on [stepErr] with a nil error is
    announced by a [TargetOut] event without payload, and is still
    forwarded on [targetErr]. *)
Theorem routeOut_stepErr_nil_error (now : Time) (s : routeOutState)
    (te : TargetError) (emit : Emitter) (w : writeEnv) :
  TE_Err te = None ->
  out_egressTarget s !! ID (TE_Target te) = None ->
  out_trace (routeOut_select fmtOperand stepLabel timeouts now s
               (OutStepErr (Some te) emit w)) =
  out_trace s ++
  AEmit (mkEventData EventTargetOut (TE_Target te) None) ::
  map ASendTargetErr
    (wr_sent (writeTargetError (we_sched w) (we_chan w) (we_start w) te
                (MessageTimeout timeouts))).
Proof.
  intros He Hnew. simpl. rewrite Hnew. unfold out_forward, emitOutEvent.
  rewrite He. by destruct (emit _).
Qed.
End RouteOutMore.

(** The step returns one target and closes its outputs. *)
Lemma routeOut_closes_routeOut_witness :
  closesRouteOut
    (out_trace
       (routeOut_loop sampleOperand "step" sampleTimeouts routeOut_init
          [(0, OutStepOut (Some host001) okEmitter calm);
           (1, OutStepOut None okEmitter calm);
           (2, OutStepErr None okEmitter calm)]).1) = 1.
Proof.
  refine (proj2 (proj1 (proj2
    (routeOut_closes_routeOut sampleOperand "step" sampleTimeouts
       [(0, OutStepOut (Some host001) okEmitter calm);
        (1, OutStepOut None okEmitter calm);
        (2, OutStepErr None okEmitter calm)] _ Break eq_refl))) _).
  split; reflexivity.
Defined.

(** Two targets leave the step, one on each output. *)
Lemma routeOut_forwards_all_witness :
  forwarded
    (out_trace
       (routeOut_loop sampleOperand "step" sampleTimeouts routeOut_init
          [(0, OutStepOut (Some host001) okEmitter calm);
           (1, OutStepErr (Some (mkTargetError host002
                                   (Some (ErrorString "disk failure"))))
                 okEmitter calm)]).1) = [host001; host002].
Proof.
  refine (eq_trans (proj1
    (routeOut_forwards_all sampleOperand "step" sampleTimeouts
       [(0, OutStepOut (Some host001) okEmitter calm);
        (1, OutStepErr (Some (mkTargetError host002
                                (Some (ErrorString "disk failure"))))
              okEmitter calm)] _ Continue _ eq_refl) _) eq_refl).
  - repeat constructor.
  - discriminate.
Defined.

(** The step reports [host001] as failed without an error. *)
Lemma routeOut_stepErr_nil_error_witness :
  out_trace (routeOut_select sampleOperand "step" sampleTimeouts 0
               routeOut_init
               (OutStepErr (Some (mkTargetError host001 None)) okEmitter calm)) =
  [AEmit (mkEventData EventTargetOut host001 None);
   ASendTargetErr (mkTargetError host001 None)].
Proof.
  exact (routeOut_stepErr_nil_error sampleOperand "step" sampleTimeouts 0
           routeOut_init (mkTargetError host001 None) okEmitter calm
           eq_refl eq_refl).
Defined.

(** ** routeIn: the events emitted *)

Lemma emitted_snoc tr a :
  emitted (tr ++ [a]) =
  emitted tr ++ match a with
                | AEmit ev => [(EventName ev, ED_Target ev)]
                | _ => []
                end.
Proof. unfold emitted. rewrite omap_app. by destruct a. Qed.

Lemma routeIn_select_events stepLabel s e :
  routeIn_inv s -> routeIn_events s ->
  routeIn_events (routeIn_select stepLabel s e).
Proof.
  intros (Herr & Hrun & _) [Hev Hnames].
  destruct s as [op tg ing prog err run tr lg]; simpl in *. subst err.
  destruct e as [|k ierr emit|[t|]]; unfold routeIn_events; simpl.
  - split; [done|]. by intros [=].
  - destruct (run !! k) as [t|] eqn:Hk; simpl; [|by auto].
    assert (run = [t] ∧ delete k run = []) as [-> ->].
    { destruct Hrun as [[-> _]|(t' & -> & _)]; [done|].
      destruct k as [|[|k]]; simpl in Hk; by simplify_eq. }
    destruct ierr; simpl; rewrite emitted_snoc, injected_snoc; simpl;
      rewrite !app_nil_r, fmap_app; simpl.
    + split; [done|]. by intros [=].
    + split; [done|]. intros _. apply Forall_app. split; [by apply Hnames|].
      by repeat constructor.
  - rewrite emitted_snoc, injected_snoc; simpl. by rewrite !app_nil_r.
  - done.
Qed.

Lemma routeIn_inject_events now s :
  routeIn_events s -> routeIn_events (routeIn_inject now s).1.
Proof.
  intros [Hev Hnames]. unfold routeIn_inject.
  destruct s as [op tg ing prog err run tr lg]; simpl in *.
  destruct err; [done|]. destruct prog; [done|].
  destruct (last tg) as [t|]; [|destruct op]; unfold routeIn_events; simpl;
    try done; rewrite emitted_snoc, injected_snoc; simpl; rewrite !app_nil_r.
  - by rewrite app_assoc, Hev.
  - done.
Qed.

Lemma routeIn_loop_events stepLabel evs s s' exited :
  routeIn_inv s -> routeIn_events s ->
  routeIn_loop stepLabel s evs = (s', exited) ->
  routeIn_events s'.
Proof.
  revert s. induction evs as [|[now e] evs IH]; intros s Hinv Hev; simpl.
  - by intros [= <- <-].
  - destruct (routeIn_enabled s e); [|by apply IH].
    destruct (routeIn_iter stepLabel now s e) as [s1 c] eqn:Hit.
    pose proof (routeIn_iter_inv _ _ _ _ _ _ Hinv Hit) as Hinv1.
    assert (routeIn_events s1) as Hev1.
    { unfold routeIn_iter in Hit.
      pose proof (routeIn_inject_events now _
                    (routeIn_select_events stepLabel s e Hinv Hev)) as H.
      by rewrite Hit in H. }
    destruct c; [by apply IH | by intros [= <- <-]].
Qed.

Lemma names_and_targets (l : list (string * Target)) (name : string)
    (ts : list Target) :
  l.*2 = ts -> Forall (fun x => x.1 = name) l -> l = (fun t => (name, t)) <$> ts.
Proof.
  intros <- H. induction H as [|[n t] l Hn H IH]; [done|].
  simpl in Hn. subst n. rewrite !fmap_cons. simpl. by f_equal.
Qed.

(** X12: [routeIn] emits one event for every injection whose result it
    received, in the order of the injections, and none for the injection
    still in flight; as long as it has no error these are [TargetIn]
    events; and when it leaves its loop without error it has emitted a
    [TargetIn] event for every target that arrived on [routeIn], in the
    order of arrival. *)
Theorem routeIn_emits_per_injection (stepLabel : string)
    (evs : list (Time * routeInEvent)) (s : routeInState) (exited : bool) :
  routeIn_loop stepLabel routeIn_init evs = (s, exited) ->
  (emitted (in_trace s)).*2 ++ in_running s = injected (in_trace s) ∧
  (in_err s = None ->
   Forall (fun x => x.1 = EventTargetIn) (emitted (in_trace s))) ∧
  (exited = true -> in_err s = None ->
   emitted (in_trace s) =
   (fun t => (EventTargetIn, t)) <$> received (in_trace s)).
Proof.
  intros E.
  pose proof (routeIn_loop_events _ _ _ _ _ routeIn_init_inv
                ltac:(by split; [|constructor]) E) as [Hev Hnames].
  split; [done|]. split; [done|]. intros -> Herr.
  apply routeIn_loop_inv in E; [|apply routeIn_init_inv].
  destruct E as (_ & Hfifo & _ & [[[e He] _]|(_ & _ & _ & Htg & Hrun & _)]).
  { rewrite Herr in He. done. }
  rewrite Hrun, app_nil_r in Hev. rewrite Htg in Hfifo. simpl in Hfifo.
  rewrite app_nil_r in Hfifo.
  apply names_and_targets; [by rewrite Hfifo | by apply Hnames].
Qed.

(** Two targets arrive and are injected one after the other. *)
Lemma routeIn_emits_per_injection_witness :
  emitted
    (in_trace
       (routeIn_loop "step" routeIn_init
          [(0, InRecv (Some host001)); (1, InRecv (Some host002));
           (2, InResult 0 None okEmitter); (3, InRecv None);
           (4, InResult 0 None okEmitter)]).1) =
  [(EventTargetIn, host001); (EventTargetIn, host002)].
Proof.
  refine (eq_trans (proj2 (proj2
    (routeIn_emits_per_injection "step"
       [(0, InRecv (Some host001)); (1, InRecv (Some host002));
        (2, InResult 0 None okEmitter); (3, InRecv None);
        (4, InResult 0 None okEmitter)] _ true eq_refl)) eq_refl eq_refl)
    eq_refl).
Defined.

(** ** The bytes of an encoded string *)

Lemma strForall_app P a b :
  strForall P (a +:+ b) = strForall P a && strForall P b.
Proof.
  induction a as [|c a IH]; simpl; [done|]. by rewrite IH, andb_assoc.
Qed.

Lemma escapeByte_plain esc b :
  (byteVal b <? 128)%N = true -> strForall (plainByte esc) (escapeByte b) = true.
Proof.
  destruct esc, b as [[] [] [] [] [] [] [] []];
    solve [ intros H; discriminate H | intros _; reflexivity ].
Qed.

Lemma safe_plain esc b :
  htmlSafeSet b || (negb esc && safeSet b) = true -> plainByte esc b = true.
Proof.
  destruct esc, b as [[] [] [] [] [] [] [] []];
    solve [ intros H; discriminate H | intros _; reflexivity ].
Qed.

Lemma high_plain esc b :
  (128 <=? byteVal b)%N = true -> plainByte esc b = true.
Proof.
  destruct esc, b as [[] [] [] [] [] [] [] []];
    solve [ intros H; discriminate H | intros _; reflexivity ].
Qed.

Lemma not_low_high b : (byteVal b <? 128)%N = false -> (128 <=? byteVal b)%N = true.
Proof. intros H. apply N.ltb_ge in H. by apply N.leb_le. Qed.

Lemma acceptRanges_first n lo hi :
  (240 <=? first n)%N = false ->
  acceptRanges (N.shiftr (first n) 4) = (lo, hi) ->
  (128 <= lo)%N.
Proof.
  unfold first.
  repeat match goal with
         | |- context [if ?x then _ else _] => destruct x
         end;
    vm_compute; solve [ intros H; discriminate H | intros _ [= <- <-]; discriminate ].
Qed.

(** The bytes after the first of a rune that [DecodeRuneInString] accepts
    are continuation bytes. *)
Lemma DecodeRuneInString_tail b rest c size :
  DecodeRuneInString (String b rest) = (c, size) ->
  tailBytes (size - 1) rest = true.
Proof.
  unfold DecodeRuneInString.
  destruct (240 <=? first (byteVal b))%N eqn:Hx; [by intros [= <- <-]|].
  destruct (acceptRanges (N.shiftr (first (byteVal b)) 4)) as [lo hi] eqn:Hacc.
  pose proof (acceptRanges_first _ _ _ Hx Hacc) as Hlo.
  destruct rest as [|c1 r1]; [by intros [= <- <-]|].
  destruct ((byteVal c1 <? lo)%N || (hi <? byteVal c1)%N) eqn:H1;
    [by intros [= <- <-]|].
  apply orb_false_iff in H1 as [H1 _]. apply N.ltb_ge in H1.
  assert ((128 <=? byteVal c1)%N = true) as Hc1 by (apply N.leb_le; lia).
  destruct (N.land (first (byteVal b)) 7 <=? 2)%N.
  { intros [= <- <-]. simpl. rewrite Hc1. by destruct r1. }
  destruct r1 as [|c2 r2]; [by intros [= <- <-]|].
  unfold contByte.
  destruct ((128 <=? byteVal c2)%N && (byteVal c2 <=? 191)%N) eqn:H2; simpl;
    [|by intros [= <- <-]].
  apply andb_true_iff in H2 as [H2 _].
  destruct (N.land (first (byteVal b)) 7 <=? 3)%N.
  { intros [= <- <-]. simpl. rewrite Hc1, H2. by destruct r2. }
  destruct r2 as [|c3 r3]; [by intros [= <- <-]|].
  destruct ((128 <=? byteVal c3)%N && (byteVal c3 <=? 191)%N) eqn:H3; simpl;
    [|by intros [= <- <-]].
  apply andb_true_iff in H3 as [H3 _].
  intros [= <- <-]. simpl. rewrite Hc1, H2, H3. by destruct r3.
Qed.

Lemma encodeRunes_plain esc s :
  ∀ keep skip,
    (keep = true -> tailBytes skip s = true) ->
    strForall (plainByte esc) (encodeRunes esc keep skip s) = true.
Proof.
  induction s as [|b rest IH]; [done|]. intros keep skip Htail.
  cbn [encodeRunes]. destruct skip as [|k].
  - destruct (byteVal b <? 128)%N eqn:Hb.
    + destruct (htmlSafeSet b || negb esc && safeSet b) eqn:Hsafe.
      * simpl. rewrite (safe_plain _ _ Hsafe). by apply IH.
      * rewrite strForall_app, escapeByte_plain by done. by apply IH.
    + destruct (DecodeRuneInString (String b rest)) as [c size] eqn:Hdec.
      destruct ((c =? RuneError)%N && (size =? 1)%nat).
      { rewrite strForall_app. rewrite IH by done. by destruct esc. }
      destruct ((c =? 8232)%N || (c =? 8233)%N) eqn:Hc.
      * rewrite strForall_app. cbn [strForall]. rewrite IH by done.
        apply orb_true_iff in Hc as [->%N.eqb_eq| ->%N.eqb_eq];
          by destruct esc.
      * cbn [strForall]. rewrite high_plain by (by apply not_low_high).
        apply IH. intros _. by eapply DecodeRuneInString_tail.
  - destruct keep.
    + specialize (Htail eq_refl). simpl in Htail.
      apply andb_true_iff in Htail as [Hb Htail].
      cbn [strForall]. rewrite high_plain by done. by apply IH.
    + by apply IH.
Qed.

(** X13: whatever the error message, the payload of a [TargetErr] event
    holds no control character (byte below 0x20) and none of the characters
    [&], [<] and [>]; the encoding of a string without HTML escaping holds
    no control character either. *)
Theorem emitOutEvent_payload_bytes
    (fmtOperand : bool -> ascii -> fmtArg -> string) (emit : Emitter)
    (t : Target) (e : error) (escapeHTML : bool) (s : string) :
  (∀ p, Payload (emitOutEvent fmtOperand emit t (Some e)).1.1 = Some p ->
        strForall (plainByte true) p = true) ∧
  strForall (plainByte escapeHTML) (encodeString escapeHTML s) = true.
Proof.
  assert (∀ esc m, strForall (plainByte esc) (encodeString esc m) = true)
    as Henc.
  { intros esc m. unfold encodeString. cbn [strForall].
    rewrite strForall_app, encodeRunes_plain by done. by destruct esc. }
  split; [|apply Henc].
  intros p Hp.
  assert (p = encodeErrPayload true (mkErrPayload (Error fmtOperand e)))
    as ->.
  { unfold emitOutEvent in Hp.
    destruct (emit _); cbn [fst Payload] in Hp; by injection Hp as <-. }
  unfold encodeErrPayload. cbn [ErrPayload_Error].
  rewrite !strForall_app, Henc. reflexivity.
Qed.

(** ** Job reports: reading *)

Section JobReportProps.
Variable ReportData : Type.
Variable jsonEncode : bool -> ReportData -> string * option error.
Variable jsonUnmarshal : string -> ReportData + error.

Lemma runNumbers_snoc {A} (groups : list (list A)) (g : list A) :
  runNumbers (groups ++ [g]) =
  runNumbers groups ++ replicate (length g) (N.of_nat (S (length groups))).
Proof.
  unfold runNumbers. rewrite imap_app, concat_app. simpl.
  by rewrite app_nil_r, Nat.add_0_r.
Qed.

Lemma replicate_snoc {A} n (x : A) : replicate (S n) x = replicate n x ++ [x].
Proof. induction n as [|n IH]; simpl; [done|]. by rewrite <- IH. Qed.

Lemma lastRun_cons (RR : list (list (Report ReportData))) r cur m :
  lastRun (mkRunLoop RR (cur ++ [r]) m) = RR ++ [cur ++ [r]].
Proof. unfold lastRun. simpl. rewrite length_app. simpl.
  destruct (0 <? length cur + 1)%nat eqn:E; [done|].
  apply Nat.ltb_ge in E. lia.
Qed.

Lemma lastRun_single (RR : list (list (Report ReportData))) r m :
  lastRun (mkRunLoop RR [r] m) = RR ++ [[r]].
Proof. exact (lastRun_cons RR r [] m). Qed.

(** One turn of the first loop that does not fail adds the report of the
    row to the groups, under the run number of the row. *)
Lemma getRunRow_ok jobID (st st' : runLoop ReportData) row :
  runLoop_wf st ->
  getRunRow jsonUnmarshal jobID st row = inl st' ->
  ∃ sr r,
    row = Scanned sr ∧ scansTo jsonUnmarshal sr r ∧ runLoop_wf st' ∧
    concat (lastRun st') = concat (lastRun st) ++ [r] ∧
    runNumbers (lastRun st') = runNumbers (lastRun st) ++ [sr_run_number sr] ∧
    Forall (fun g => g ≠ []) (lastRun st').
Proof.
  intros (Hlast & Hne & Hcur) Hrow.
  destruct row as [e|e|sr]; simpl in Hrow; try done.
  destruct (jsonUnmarshal (sr_data sr)) as [data|e] eqn:Hdata; [|done].
  destruct (sr_run_number sr =? 0)%N eqn:H0; [done|].
  destruct ((sr_run_number sr <? lastRunNum st)%N
            || (uintSucc (lastRunNum st) <? sr_run_number sr)%N) eqn:Hrange;
    [done|].
  apply N.eqb_neq in H0.
  apply orb_false_iff in Hrange as [Hlo Hhi].
  apply N.ltb_ge in Hlo. apply N.ltb_ge in Hhi.
  exists sr, (mkReport (sr_success sr) (sr_report_time sr) data).
  split; [done|]. split; [done|].
  destruct st as [RR cur last]. simpl in *.
  assert (sr_run_number sr ≠ last -> sr_run_number sr = (last + 1)%N) as Hnext.
  { intros Hd. unfold uintSucc in Hhi.
    destruct (decide (last + 1 < 2 ^ 64)%N) as [Hs|Hs].
    - rewrite N.mod_small in Hhi by done. lia.
    - assert (last + 1 = 2 ^ 64 ∨ 2 ^ 64 < last + 1)%N as [He|Hgt] by lia.
      + rewrite He, N.Div0.mod_same in Hhi. lia.
      + pose proof (N.mod_upper_bound (last + 1) (2 ^ 64)) as Hm.
        specialize (Hm ltac:(done)). lia. }
  destruct (sr_run_number sr =? last)%N eqn:Heq; simpl in Hrow.
  - (* the same run *)
    apply N.eqb_eq in Heq. injection Hrow as <-.
    assert (cur ≠ []) as Hc.
    { intros ->. unfold lastRun in Hlast. simpl in Hlast.
      rewrite (Hcur eq_refl) in Hlast. simpl in Hlast. lia. }
    assert (lastRun (mkRunLoop RR cur last) = RR ++ [cur]) as Hold.
    { unfold lastRun. simpl. destruct cur; [done|]. done. }
    rewrite Hold in *. rewrite lastRun_cons.
    rewrite length_app in Hlast. simpl in Hlast.
    split; [|split; [|split]].
    + unfold runLoop_wf. rewrite lastRun_cons. simpl.
      rewrite length_app. simpl. split; [done|]. split; [done|].
      intros H. by apply app_eq_nil in H as [_ [=]].
    + rewrite !concat_app. simpl. by rewrite !app_nil_r, app_assoc.
    + rewrite !runNumbers_snoc, length_app. simpl.
      rewrite Nat.add_1_r, replicate_snoc, app_assoc. do 2 f_equal. lia.
    + apply Forall_app. split; [done|]. constructor; [|done].
      intros H. by apply app_eq_nil in H as [_ [=]].
  - (* the next run *)
    apply N.eqb_neq in Heq. specialize (Hnext Heq).
    destruct (0 <? last)%N eqn:Hpos.
    + apply N.ltb_lt in Hpos. injection Hrow as <-.
      assert (cur ≠ []) as Hc.
      { intros ->. unfold lastRun in Hlast. simpl in Hlast.
        rewrite (Hcur eq_refl) in Hlast. simpl in Hlast. lia. }
      assert (lastRun (mkRunLoop RR cur last) = RR ++ [cur]) as Hold.
      { unfold lastRun. simpl. destruct cur; [done|]. done. }
      rewrite Hold in *. rewrite lastRun_single.
      split; [|split; [|split]].
      * unfold runLoop_wf. rewrite lastRun_single. simpl.
        rewrite !length_app in *. simpl in *. split; [lia|].
        split; [|done]. apply Forall_app. split; [done|]. by constructor.
      * rewrite !concat_app. simpl. by rewrite !app_nil_r.
      * rewrite (runNumbers_snoc (RR ++ [cur])). simpl. do 2 f_equal. lia.
      * apply Forall_app. split; [|by repeat constructor].
        apply Forall_app. split; [done|]. by constructor.
    + apply N.ltb_ge in Hpos. assert (last = 0%N) as -> by lia.
      injection Hrow as <-.
      assert (cur = [] ∧ RR = []) as [-> ->].
      { destruct cur as [|r' cur]; [by rewrite Hcur|].
        unfold lastRun in Hlast. simpl in Hlast.
        rewrite length_app in Hlast. simpl in Hlast. lia. }
      simpl. unfold runLoop_wf, lastRun, runNumbers. simpl.
      rewrite Hnext. repeat split; try done. by repeat constructor.
Qed.

Lemma getRunRows_ok jobID rows (st st' : runLoop ReportData) :
  runLoop_wf st ->
  Forall (fun g => g ≠ []) (lastRun st) ->
  getRunRows jsonUnmarshal jobID st rows = inl st' ->
  ∃ srs reports,
    rows = Scanned <$> srs ∧ Forall2 (scansTo jsonUnmarshal) srs reports ∧
    concat (lastRun st') = concat (lastRun st) ++ reports ∧
    runNumbers (lastRun st') =
      runNumbers (lastRun st) ++ (sr_run_number <$> srs) ∧
    Forall (fun g => g ≠ []) (lastRun st').
Proof.
  revert st. induction rows as [|row rows IH]; intros st Hwf Hne0; simpl.
  - intros [= <-]. exists [], []. by rewrite !app_nil_r.
  - destruct (getRunRow jsonUnmarshal jobID st row) as [st1|e] eqn:E; [|done].
    intros Hrest.
    apply getRunRow_ok in E as (sr & r & -> & Hsr & Hwf1 & Hc & Hn & Hne);
      [|done].
    apply IH in Hrest as (srs & rs & -> & Hall & Hc' & Hn' & Hne'); [|done..].
    exists (sr :: srs), (r :: rs). split; [done|].
    split; [by constructor|]. by rewrite Hc', Hn', Hc, Hn, <- !app_assoc.
Qed.

(** X14: when [GetJobReport] succeeds, every row of the run reports was
    read and decoded, the run numbers of the rows are 1 as many times as
    the first group has reports, then 2, and so on without a gap, the
    groups hold the reports of the rows in the order of the rows, and no
    group is empty. *)
Theorem GetJobReport_groups_by_run_number (initErr : option error)
    (rows : list (rowRead scannedRun))
    (finalQuery : list (rowRead scannedFinal) + error) (jobID : N)
    (jr : JobReport ReportData) :
  GetJobReport jsonUnmarshal initErr (inl rows) finalQuery jobID = inl jr ->
  JobID jr = jobID ∧
  ∃ srs,
    rows = Scanned <$> srs ∧
    Forall2 (scansTo jsonUnmarshal) srs (concat (RunReports jr)) ∧
    sr_run_number <$> srs = runNumbers (RunReports jr) ∧
    Forall (fun g => g ≠ []) (RunReports jr).
Proof.
  unfold GetJobReport. destruct initErr; [done|].
  destruct (getRunRows jsonUnmarshal jobID (mkRunLoop [] [] 0) rows)
    as [st|e] eqn:E; [|done].
  destruct finalQuery as [frows|e]; [|done].
  destruct (getFinalRows jsonUnmarshal jobID [] frows) as [fr|e]; [|done].
  intros [= <-]. simpl. split; [done|].
  apply getRunRows_ok in E as (srs & rs & -> & Hall & Hc & Hn & Hne).
  - exists srs. simpl in Hc, Hn. by rewrite Hc, Hn.
  - unfold runLoop_wf. simpl. repeat split; done.
  - constructor.
Qed.

(** *** Storing *)

Lemma storeRun_spec exec jobID runID reports db n db' n' err :
  storeRun jsonEncode exec jobID runID reports db n = (db', n', err) ->
  final_reports db' = final_reports db ∧
  (∃ k, run_reports db' =
        run_reports db ++ take k (rowsOfRun jsonEncode jobID runID reports)) ∧
  (err = None ->
   run_reports db' = run_reports db ++ rowsOfRun jsonEncode jobID runID reports ∧
   Forall (fun r => (ToJSON jsonEncode r).2 = None) reports).
Proof.
  unfold rowsOfRun.
  revert db n. induction reports as [|r reports IH]; intros db n; simpl;
    unfold ToJSON in *.
  - intros [= <- <- <-]. split; [done|]. split; [exists 0|];
      by rewrite ?app_nil_r.
  - destruct (jsonEncode false (Data r)) as [js [e|]] eqn:Hjs.
    + intros [= <- <- <-]. split; [done|]. split; [|done].
      exists 0. by rewrite app_nil_r.
    + destruct (exec n) as [e|].
      * intros [= <- <- <-]. split; [done|]. split; [|done].
        exists 0. by rewrite app_nil_r.
      * intros H. apply IH in H as (Hf & [k Hk] & Hok). simpl in *.
        split; [done|]. split.
        -- exists (S k). simpl. by rewrite Hk, <- app_assoc.
        -- intros He. destruct (Hok He) as [Hrows Hall].
           split; [by rewrite Hrows, <- app_assoc|].
           constructor; [by rewrite Hjs | done].
Qed.

Lemma storeRuns_spec exec jobID runID runs db n db' n' err :
  storeRuns jsonEncode exec jobID runID runs db n = (db', n', err) ->
  final_reports db' = final_reports db ∧
  (∃ k, run_reports db' =
        run_reports db ++ take k (rowsOfRuns jsonEncode jobID runID runs)) ∧
  (err = None ->
   run_reports db' = run_reports db ++ rowsOfRuns jsonEncode jobID runID runs ∧
   Forall (fun r => (ToJSON jsonEncode r).2 = None) (concat runs)).
Proof.
  revert runID db n. induction runs as [|run runs IH]; intros runID db n; simpl.
  - intros [= <- <- <-]. split; [done|]. split; [exists 0|];
      by rewrite ?app_nil_r.
  - destruct (storeRun jsonEncode exec jobID runID run db n)
      as [[db1 n1] [e|]] eqn:Hrun.
    + intros [= <- <- <-].
      apply storeRun_spec in Hrun as (Hf & [k Hk] & _).
      split; [done|]. split; [|done].
      exists (k `min` length (rowsOfRun jsonEncode jobID runID run)).
      rewrite take_app_le by lia. rewrite Hk. f_equal.
      destruct (decide (k <= length (rowsOfRun jsonEncode jobID runID run))).
      * by rewrite Nat.min_l.
      * rewrite Nat.min_r by lia. by rewrite !take_ge by lia.
    + intros H. apply IH in H as (Hf & [k Hk] & Hok).
      apply storeRun_spec in Hrun as (Hf1 & _ & Hok1).
      destruct (Hok1 eq_refl) as [Hrows1 Hall1].
      split; [congruence|]. split.
      * exists (length (rowsOfRun jsonEncode jobID runID run) + k).
        rewrite take_app_add'; [|done]. by rewrite Hk, Hrows1, <- app_assoc.
      * intros He. destruct (Hok He) as [Hrows Hall].
        split; [by rewrite Hrows, Hrows1, <- app_assoc|].
        by apply Forall_app.
Qed.

Lemma storeFinals_spec exec jobID reports db n db' n' err :
  storeFinals jsonEncode exec jobID reports db n = (db', n', err) ->
  run_reports db' = run_reports db ∧
  (∃ k, final_reports db' =
        final_reports db ++ take k (rowsOfFinals jsonEncode jobID reports)) ∧
  (err = None ->
   final_reports db' = final_reports db ++ rowsOfFinals jsonEncode jobID reports ∧
   Forall (fun r => (ToJSON jsonEncode r).2 = None) reports).
Proof.
  unfold rowsOfFinals.
  revert db n. induction reports as [|r reports IH]; intros db n; simpl;
    unfold ToJSON in *.
  - intros [= <- <- <-]. split; [done|]. split; [exists 0|];
      by rewrite ?app_nil_r.
  - destruct (jsonEncode false (Data r)) as [js [e|]] eqn:Hjs.
    + intros [= <- <- <-]. split; [done|]. split; [|done].
      exists 0. by rewrite app_nil_r.
    + destruct (exec n) as [e|].
      * intros [= <- <- <-]. split; [done|]. split; [|done].
        exists 0. by rewrite app_nil_r.
      * intros H. apply IH in H as (Hf & [k Hk] & Hok). simpl in *.
        split; [done|]. split.
        -- exists (S k). simpl. by rewrite Hk, <- app_assoc.
        -- intros He. destruct (Hok He) as [Hrows Hall].
           split; [by rewrite Hrows, <- app_assoc|].
           constructor; [by rewrite Hjs | done].
Qed.

(** X15: [StoreJobReport] only appends rows.  When it returns no error it
    has appended one row per run report, in order, under the run number
    "run ID plus one", and one row per final report; when it returns an
    error, the rows inserted before the failure stay in the tables. *)
Theorem StoreJobReport_appends (initErr : option error)
    (exec : nat -> option error) (db db' : database)
    (jr : JobReport ReportData) (err : option error) :
  StoreJobReport jsonEncode initErr exec db jr = (db', err) ->
  (∃ k, run_reports db' =
        run_reports db ++
        take k (rowsOfRuns jsonEncode (JobID jr) 0 (RunReports jr))) ∧
  (∃ k, final_reports db' =
        final_reports db ++
        take k (rowsOfFinals jsonEncode (JobID jr) (FinalReports jr))) ∧
  (err = None ->
   run_reports db' =
     run_reports db ++ rowsOfRuns jsonEncode (JobID jr) 0 (RunReports jr) ∧
   final_reports db' =
     final_reports db ++ rowsOfFinals jsonEncode (JobID jr) (FinalReports jr) ∧
   Forall (fun r => (ToJSON jsonEncode r).2 = None)
     (concat (RunReports jr) ++ FinalReports jr)) ∧
  (is_Some initErr -> db' = db ∧ is_Some err).
Proof.
  unfold StoreJobReport. destruct initErr as [e|].
  { intros [= <- <-]. repeat split; try (exists 0; by rewrite app_nil_r);
      try done; eauto. }
  destruct (storeRuns jsonEncode exec (JobID jr) 0 (RunReports jr) db 0)
    as [[db1 n1] [e|]] eqn:Hruns.
  - intros [= <- <-]. apply storeRuns_spec in Hruns as (Hf & Hk & _).
    split; [done|]. split; [exists 0; by rewrite app_nil_r|].
    split; [done|]. by intros [? [=]].
  - destruct (storeFinals jsonEncode exec (JobID jr) (FinalReports jr) db1 n1)
      as [[db2 n2] e] eqn:Hfin.
    intros [= <- <-].
    apply storeRuns_spec in Hruns as (Hf & _ & Hok).
    destruct (Hok eq_refl) as [Hrows Hall].
    apply storeFinals_spec in Hfin as (Hr & [k Hk] & Hok2).
    split; [|split; [|split]].
    + exists (length (rowsOfRuns jsonEncode (JobID jr) 0 (RunReports jr))).
      by rewrite firstn_all, Hr.
    + exists k. by rewrite Hk, Hf.
    + intros He. destruct (Hok2 He) as [Hrows2 Hall2].
      split; [congruence|]. split; [congruence|]. by apply Forall_app.
    + by intros [? [=]].
Qed.

(** *** Storing, then reading back *)

Lemma getRunRows_app jobID st (a b : list (rowRead scannedRun)) :
  getRunRows jsonUnmarshal jobID st (a ++ b) =
  match getRunRows jsonUnmarshal jobID st a with
  | inl st' => getRunRows jsonUnmarshal jobID st' b
  | inr e => inr e
  end.
Proof.
  revert st. induction a as [|row a IH]; intros st; simpl; [done|].
  by destruct (getRunRow jsonUnmarshal jobID st row).
Qed.

Lemma readRuns_rows rows finals :
  readRuns (mkDatabase rows finals) =
  (fun r => Scanned (mkScannedRun (row_success r) (row_report_time r)
                       (row_run_number r) (row_data r))) <$> rows.
Proof. done. Qed.

Lemma readRuns_any rows finals finals' :
  readRuns (mkDatabase rows finals) = readRuns (mkDatabase rows finals').
Proof. done. Qed.

Lemma readFinals_any rows rows' finals :
  readFinals (mkDatabase rows finals) = readFinals (mkDatabase rows' finals).
Proof. done. Qed.

Lemma uintSucc_small n : (n + 1 < 2 ^ 64)%N -> uintSucc n = (n + 1)%N.
Proof. intros H. unfold uintSucc. by rewrite N.mod_small. Qed.

(** Further rows of the current run are appended to its reports. *)
Lemma getRunRows_same jobID RR cur k reports :
  (N.of_nat (k + 1) + 1 < 2 ^ 64)%N ->
  Forall (decodes jsonEncode jsonUnmarshal) reports ->
  getRunRows jsonUnmarshal jobID (mkRunLoop RR cur (N.of_nat (k + 1)))
    (readRuns (mkDatabase (rowsOfRun jsonEncode jobID k reports) [])) =
  inl (mkRunLoop RR (cur ++ reports) (N.of_nat (k + 1))).
Proof.
  intros Hb Hall. revert cur.
  induction Hall as [|r reports Hr Hall IH]; intros cur.
  - simpl. by rewrite app_nil_r.
  - rewrite readRuns_rows in *. unfold rowsOfRun in *.
    rewrite !fmap_cons. cbn [getRunRows getRunRow sr_data sr_run_number
      sr_success sr_report_time row_success row_report_time row_run_number
      row_data lastRunNum runReports currentRunReports].
    rewrite Hr.
    replace (N.of_nat (k + 1) =? 0)%N with false
      by (symmetry; apply N.eqb_neq; lia).
    rewrite N.ltb_irrefl, uintSucc_small by done.
    replace (N.of_nat (k + 1) + 1 <? N.of_nat (k + 1))%N with false
      by (symmetry; apply N.ltb_ge; lia).
    rewrite N.eqb_refl. cbn [orb negb].
    replace (mkReport (Success r) (ReportTime r) (Data r)) with r
      by (by destruct r).
    rewrite IH. by rewrite <- app_assoc.
Qed.

(** The rows of a run that is not empty start a new group. *)
Lemma getRunRows_run jobID RR cur k reports :
  reports ≠ [] ->
  (k = 0 -> cur = []) ->
  (N.of_nat (k + 1) + 1 < 2 ^ 64)%N ->
  Forall (decodes jsonEncode jsonUnmarshal) reports ->
  getRunRows jsonUnmarshal jobID (mkRunLoop RR cur (N.of_nat k))
    (readRuns (mkDatabase (rowsOfRun jsonEncode jobID k reports) [])) =
  inl (mkRunLoop (if (0 <? N.of_nat k)%N then RR ++ [cur] else RR)
         reports (N.of_nat (k + 1))).
Proof.
  intros Hne Hk Hb Hall. destruct Hall as [|r reports Hr Hall]; [done|].
  pose proof (getRunRows_same jobID
    (if (0 <? N.of_nat k)%N then RR ++ [cur] else RR) [r] k reports Hb Hall)
    as Hrest.
  rewrite readRuns_rows in *. unfold rowsOfRun in *.
  rewrite !fmap_cons. cbn [getRunRows getRunRow sr_data sr_run_number
    sr_success sr_report_time row_success row_report_time row_run_number
    row_data lastRunNum runReports currentRunReports].
  rewrite Hr.
  replace (N.of_nat (k + 1) =? 0)%N with false
    by (symmetry; apply N.eqb_neq; lia).
  replace (N.of_nat (k + 1) <? N.of_nat k)%N with false
    by (symmetry; apply N.ltb_ge; lia).
  rewrite uintSucc_small by lia.
  replace (N.of_nat k + 1 <? N.of_nat (k + 1))%N with false
    by (symmetry; apply N.ltb_ge; lia).
  replace (N.of_nat (k + 1) =? N.of_nat k)%N with false
    by (symmetry; apply N.eqb_neq; lia).
  cbn [orb negb].
  replace (mkReport (Success r) (ReportTime r) (Data r)) with r
    by (by destruct r).
  destruct (0 <? N.of_nat k)%N eqn:Hpos.
  - exact Hrest.
  - apply N.ltb_ge in Hpos. rewrite Hk by lia. exact Hrest.
Qed.

Lemma rowsOfRuns_app jobID k (a b : list (list (Report ReportData))) :
  rowsOfRuns jsonEncode jobID k (a ++ b) =
  rowsOfRuns jsonEncode jobID k a ++
  rowsOfRuns jsonEncode jobID (k + length a) b.
Proof.
  revert k. induction a as [|run a IH]; intros k; simpl.
  - by rewrite Nat.add_0_r.
  - rewrite IH, <- app_assoc. do 3 f_equal. lia.
Qed.

Lemma rowsOfRuns_empty jobID k n :
  rowsOfRuns jsonEncode jobID k (replicate n []) = [].
Proof. revert k. induction n as [|n IH]; intros k; simpl; [done|]. apply IH. Qed.

Lemma readRuns_app a b :
  readRuns (mkDatabase (a ++ b) []) =
  readRuns (mkDatabase a []) ++ readRuns (mkDatabase b []).
Proof. by rewrite !readRuns_rows, fmap_app. Qed.

(** Reading the rows of runs none of which is empty adds the runs, as they
    are, to the groups. *)
Lemma getRunRows_runs jobID runs :
  ∀ k RR cur,
    Forall (fun g => g ≠ []) runs ->
    Forall (decodes jsonEncode jsonUnmarshal) (concat runs) ->
    (N.of_nat (k + length runs) + 1 < 2 ^ 64)%N ->
    (k = 0 -> cur = [] ∧ RR = []) ->
    (k ≠ 0 -> cur ≠ []) ->
    ∃ st',
      getRunRows jsonUnmarshal jobID (mkRunLoop RR cur (N.of_nat k))
        (readRuns (mkDatabase (rowsOfRuns jsonEncode jobID k runs) [])) =
      inl st' ∧
      lastRun st' = lastRun (mkRunLoop RR cur (N.of_nat k)) ++ runs ∧
      lastRunNum st' = N.of_nat (k + length runs).
Proof.
  induction runs as [|run runs IH]; intros k RR cur Hne Hdec Hb H0 Hpos.
  - simpl. eexists. split; [done|]. by rewrite app_nil_r, Nat.add_0_r.
  - apply Forall_cons in Hne as [Hrun Hne]. simpl in Hdec.
    apply Forall_app in Hdec as [Hdrun Hdec]. simpl in Hb.
    cbn [rowsOfRuns]. rewrite readRuns_app, getRunRows_app.
    rewrite getRunRows_run;
      [|done|(intros Hk0; by destruct (H0 Hk0))|lia|done].
    destruct (IH (S k) (if (0 <? N.of_nat k)%N then RR ++ [cur] else RR) run)
      as (st' & Hget & Hlast & Hnum); try done; try lia.
    replace (N.of_nat (k + 1)) with (N.of_nat (S k)) by (f_equal; lia).
    exists st'. split; [done|]. split; [|rewrite Hnum; simpl; f_equal; lia].
    rewrite Hlast. unfold lastRun. simpl.
    destruct run as [|r run]; [done|]. simpl.
    destruct (decide (k = 0)) as [->|Hk].
    + destruct (H0 eq_refl) as [-> ->]. done.
    + specialize (Hpos Hk). destruct cur as [|c cur]; [done|]. simpl.
      replace (0 <? N.of_nat k)%N with true
        by (symmetry; apply N.ltb_lt; lia).
      by rewrite <- !app_assoc.
Qed.

Lemma getFinalRows_stored jobID reports acc :
  Forall (decodes jsonEncode jsonUnmarshal) reports ->
  getFinalRows jsonUnmarshal jobID acc
    (readFinals (mkDatabase [] (rowsOfFinals jsonEncode jobID reports))) =
  inl (acc ++ reports).
Proof.
  intros Hall. revert acc. induction Hall as [|r reports Hr Hall IH]; intros acc.
  - simpl. by rewrite app_nil_r.
  - unfold readFinals, rowsOfFinals in *. simpl in *. rewrite Hr.
    replace (mkReport (Success r) (ReportTime r) (Data r)) with r
      by (by destruct r).
    rewrite IH. by rewrite <- app_assoc.
Qed.

(** X16: a job report stored in an empty database and read back, the rows
    in the order of insertion, comes back as it was, up to the empty runs
    at its end, which are lost: provided that no other run is empty, that
    the data of every report survives encoding and decoding, and that there
    are fewer than 2^64 - 1 runs. *)
Theorem StoreJobReport_GetJobReport (exec : nat -> option error)
    (db : database) (jr : JobReport ReportData)
    (runs : list (list (Report ReportData))) (n : nat) :
  RunReports jr = runs ++ replicate n [] ->
  Forall (fun g => g ≠ []) runs ->
  (N.of_nat (length runs) + 1 < 2 ^ 64)%N ->
  (∀ r, r ∈ concat runs ++ FinalReports jr -> (decodes jsonEncode jsonUnmarshal) r) ->
  StoreJobReport jsonEncode None exec (mkDatabase [] []) jr = (db, None) ->
  GetJobReport jsonUnmarshal None (inl (readRuns db)) (inl (readFinals db))
    (JobID jr) =
  inl (mkJobReport (JobID jr) runs (FinalReports jr)).
Proof.
  intros Hruns Hne Hb Hdec Hstore. unfold StoreJobReport in Hstore.
  destruct (storeRuns jsonEncode exec (JobID jr) 0 (RunReports jr)
              (mkDatabase [] []) 0) as [[db1 n1] [e|]] eqn:Hr;
    [by injection Hstore|].
  destruct (storeFinals jsonEncode exec (JobID jr) (FinalReports jr) db1 n1)
    as [[db2 n2] e] eqn:Hf.
  injection Hstore as -> ->.
  apply storeRuns_spec in Hr as (Hf1 & _ & Hok1).
  destruct (Hok1 eq_refl) as [Hrows1 _].
  apply storeFinals_spec in Hf as (Hr2 & _ & Hok2).
  destruct (Hok2 eq_refl) as [Hrows2 _].
  simpl in *. rewrite Hruns, rowsOfRuns_app, rowsOfRuns_empty, app_nil_r
    in Hrows1.
  destruct db as [rr fr]. simpl in *. subst rr. rewrite Hf1 in Hrows2.
  subst fr. simpl.
  assert (Forall (decodes jsonEncode jsonUnmarshal) (concat runs)) as Hd1.
  { apply Forall_forall. intros r Hr. apply Hdec, elem_of_app. by left. }
  assert (Forall (decodes jsonEncode jsonUnmarshal) (FinalReports jr)) as Hd2.
  { apply Forall_forall. intros r Hr. apply Hdec, elem_of_app. by right. }
  destruct (getRunRows_runs (JobID jr) runs 0 [] [] Hne Hd1 Hb) as
    (st' & Hget & Hlast & _); [done..|].
  unfold GetJobReport.
  rewrite (readRuns_any _ _ []), (readFinals_any _ []), Hrows1.
  change (N.of_nat 0) with 0%N in Hget. rewrite Hget.
  rewrite (getFinalRows_stored _ _ [] Hd2). simpl. by rewrite Hlast.
Qed.

(** X17: a job report with an empty run that is followed by a run with a
    report cannot be read back: after the runs before the empty one, which
    are not empty, [GetJobReport] meets a run number that skips one and
    fails with the invalid-run-number error. *)
Theorem StoreJobReport_empty_run_gap (exec : nat -> option error)
    (db : database) (jr : JobReport ReportData)
    (pre post : list (list (Report ReportData)))
    (r : Report ReportData) (rs : list (Report ReportData)) :
  RunReports jr = pre ++ [] :: (r :: rs) :: post ->
  Forall (fun g => g ≠ []) pre ->
  (N.of_nat (length pre) + 1 < 2 ^ 64)%N ->
  (∀ r', r' ∈ r :: concat pre -> (decodes jsonEncode jsonUnmarshal) r') ->
  StoreJobReport jsonEncode None exec (mkDatabase [] []) jr = (db, None) ->
  GetJobReport jsonUnmarshal None (inl (readRuns db)) (inl (readFinals db))
    (JobID jr) =
  inr (Errorf
         "invalid run_number retrieved from database: either it is not ordered, or there is a gap in run numbers in the database for job %d. Current run number: %d, last run number: %d"
         [AInt (Z.of_N (JobID jr));
          AInt (Z.of_N (N.of_nat (length pre + 2)));
          AInt (Z.of_N (N.of_nat (length pre)))]).
Proof.
  intros Hruns Hne Hb Hdec Hstore. unfold StoreJobReport in Hstore.
  destruct (storeRuns jsonEncode exec (JobID jr) 0 (RunReports jr)
              (mkDatabase [] []) 0) as [[db1 n1] [e|]] eqn:Hr;
    [by injection Hstore|].
  destruct (storeFinals jsonEncode exec (JobID jr) (FinalReports jr) db1 n1)
    as [[db2 n2] e] eqn:Hf.
  injection Hstore as -> ->.
  apply storeRuns_spec in Hr as (Hf1 & _ & Hok1).
  destruct (Hok1 eq_refl) as [Hrows1 _].
  apply storeFinals_spec in Hf as (Hr2 & _ & _).
  simpl in *. rewrite Hruns, rowsOfRuns_app in Hrows1. simpl in Hrows1.
  destruct db as [rr fr]. simpl in *. subst rr.
  assert (Forall (decodes jsonEncode jsonUnmarshal) (concat pre)) as Hd1.
  { apply Forall_forall. intros r' Hr'. apply Hdec. by right. }
  destruct (getRunRows_runs (JobID jr) pre 0 [] [] Hne Hd1 Hb) as
    (st' & Hget & _ & Hnum); [done..|].
  unfold GetJobReport.
  rewrite (readRuns_any _ _ []), ?Hrows1, readRuns_app, getRunRows_app.
  change (N.of_nat 0) with 0%N in Hget. rewrite Hget.
  rewrite readRuns_rows, fmap_cons.
  destruct st' as [RR cur last]. simpl in Hnum. subst last.
  cbn [getRunRows getRunRow sr_data sr_run_number sr_success sr_report_time
    row_success row_report_time row_run_number row_data lastRunNum].
  rewrite (Hdec r) by (by left).
  replace (N.of_nat (S (length pre + 1)) =? 0)%N with false
    by (symmetry; apply N.eqb_neq; lia).
  replace (N.of_nat (S (length pre + 1)) <? N.of_nat (length pre))%N
    with false by (symmetry; apply N.ltb_ge; lia).
  rewrite uintSucc_small by lia.
  replace (N.of_nat (length pre) + 1 <? N.of_nat (S (length pre + 1)))%N
    with true by (symmetry; apply N.ltb_lt; lia).
  cbn [orb]. do 5 f_equal. lia.
Qed.
End JobReportProps.

(** The payload for an error message with a line break and HTML in it. *)
Lemma emitOutEvent_payload_bytes_witness :
  strForall (plainByte true)
    (encodeErrPayload true
       (mkErrPayload ("<b>disk" +:+ String (byte 10) "failure</b>"))) = true.
Proof.
  exact (proj1
    (emitOutEvent_payload_bytes sampleOperand okEmitter host001
       (ErrorString ("<b>disk" +:+ String (byte 10) "failure</b>")) true
       EmptyString) _ eq_refl).
Defined.

(** Three rows, two of run 1 and one of run 2. *)
Lemma GetJobReport_groups_by_run_number_witness :
  ∃ srs,
    [Scanned (mkScannedRun true 10 1 "a"); Scanned (mkScannedRun false 11 1 "b");
     Scanned (mkScannedRun true 12 2 "c")] = Scanned <$> srs ∧
    Forall2 (scansTo plainUnmarshal) srs
      (concat [[mkReport true 10 "a"; mkReport false 11 "b"];
               [mkReport true 12 "c"]]) ∧
    sr_run_number <$> srs =
      runNumbers [[mkReport true 10 "a"; mkReport false 11 "b"];
                  [mkReport true 12 "c"]] ∧
    Forall (fun g => g ≠ [])
      [[mkReport true 10 "a"; mkReport false 11 "b"]; [mkReport true 12 "c"]].
Proof.
  exact (proj2
    (GetJobReport_groups_by_run_number string plainUnmarshal None
       [Scanned (mkScannedRun true 10 1 "a");
        Scanned (mkScannedRun false 11 1 "b");
        Scanned (mkScannedRun true 12 2 "c")] (inl []) 7
       (mkJobReport 7 [[mkReport true 10 "a"; mkReport false 11 "b"];
                       [mkReport true 12 "c"]] []) eq_refl)).
Defined.

(** The second statement fails: the row of the first stays. *)
Lemma StoreJobReport_appends_witness :
  ∃ k,
    run_reports
      (StoreJobReport plainEncode None
         (fun n => if n =? 1 then Some (ErrorString "connection lost") else None)
         (mkDatabase [] [])
         (mkJobReport 7 [[mkReport true 10 "a"; mkReport false 11 "b"]] [])).1 =
    [] ++
    take k (rowsOfRuns plainEncode 7 0
              [[mkReport true 10 "a"; mkReport false 11 "b"]]).
Proof.
  refine (proj1
    (StoreJobReport_appends string plainEncode None
       (fun n => if n =? 1 then Some (ErrorString "connection lost") else None)
       (mkDatabase [] []) _
       (mkJobReport 7 [[mkReport true 10 "a"; mkReport false 11 "b"]] [])
       _ eq_refl)).
Defined.

(** Two runs and a final report, stored and read back. *)
Lemma StoreJobReport_GetJobReport_witness :
  GetJobReport plainUnmarshal None
    (inl (readRuns
            (StoreJobReport plainEncode None (fun _ => None) (mkDatabase [] [])
               (mkJobReport 7
                  [[mkReport true 10 "a"; mkReport false 11 "b"];
                   [mkReport true 12 "c"]] [mkReport true 13 "d"])).1))
    (inl (readFinals
            (StoreJobReport plainEncode None (fun _ => None) (mkDatabase [] [])
               (mkJobReport 7
                  [[mkReport true 10 "a"; mkReport false 11 "b"];
                   [mkReport true 12 "c"]] [mkReport true 13 "d"])).1)) 7 =
  inl (mkJobReport 7
         [[mkReport true 10 "a"; mkReport false 11 "b"]; [mkReport true 12 "c"]]
         [mkReport true 13 "d"]).
Proof.
  refine (StoreJobReport_GetJobReport string plainEncode plainUnmarshal
    (fun _ => None) _
    (mkJobReport 7
       [[mkReport true 10 "a"; mkReport false 11 "b"]; [mkReport true 12 "c"]]
       [mkReport true 13 "d"])
    [[mkReport true 10 "a"; mkReport false 11 "b"]; [mkReport true 12 "c"]]
    0 eq_refl _ _ _ eq_refl).
  - repeat constructor; discriminate.
  - reflexivity.
  - intros r _. reflexivity.
Defined.

(** The second of three runs has no report. *)
Lemma StoreJobReport_empty_run_gap_witness :
  GetJobReport plainUnmarshal None
    (inl (readRuns
            (StoreJobReport plainEncode None (fun _ => None) (mkDatabase [] [])
               (mkJobReport 7
                  [[mkReport true 10 "a"]; []; [mkReport true 12 "c"]] [])).1))
    (inl (readFinals
            (StoreJobReport plainEncode None (fun _ => None) (mkDatabase [] [])
               (mkJobReport 7
                  [[mkReport true 10 "a"]; []; [mkReport true 12 "c"]] [])).1))
    7 =
  inr (Errorf
         "invalid run_number retrieved from database: either it is not ordered, or there is a gap in run numbers in the database for job %d. Current run number: %d, last run number: %d"
         [AInt 7; AInt 3; AInt 1]).
Proof.
  refine (StoreJobReport_empty_run_gap string plainEncode plainUnmarshal
    (fun _ => None) _
    (mkJobReport 7 [[mkReport true 10 "a"]; []; [mkReport true 12 "c"]] [])
    [[mkReport true 10 "a"]] [] (mkReport true 12 "c") []
    eq_refl _ _ _ eq_refl).
  - repeat constructor; discriminate.
  - reflexivity.
  - intros r _. reflexivity.
Defined.

(** ** route and routeIn: failures *)

(** X18: when the pipeline does not take the result of a routing block
    within the message timeout, [route] panics, whatever the result; and as
    long as one of the two activities has not returned, [route] delivers
    nothing. *)
Theorem route_panics_when_not_listening
    (fmtOperand : bool -> ascii -> fmtArg -> string) (bundle : TestStepBundle)
    (timeouts : TestRunnerTimeouts)
    (evsIn : list (Time * routeInEvent)) (evsOut : list (Time * routeOutEvent))
    (resultCh : nat -> bool) (pk : nat -> nat) (start : nat) :
  (is_Some (routeIn (TestStepLabel bundle) evsIn) ->
   is_Some (routeOut fmtOperand (TestStepLabel bundle) timeouts evsOut) ->
   (∀ u, start <= u <= start + ticks (MessageTimeout timeouts) ->
         resultCh u = false) ->
   route fmtOperand bundle timeouts evsIn evsOut resultCh pk start =
     Some (RoutePanicked "could not send routing block result")) ∧
  (routeIn (TestStepLabel bundle) evsIn = None ∨
   routeOut fmtOperand (TestStepLabel bundle) timeouts evsOut = None ->
   route fmtOperand bundle timeouts evsIn evsOut resultCh pk start = None).
Proof.
  split.
  - intros [rin Hin] [rout Hout] Hch. unfold route. rewrite Hin, Hout.
    by rewrite selectWait_timer.
  - unfold route. intros [-> | ->]; [done|].
    by destruct (routeIn (TestStepLabel bundle) evsIn).
Qed.

Lemma routeIn_loop_app stepLabel a b s s' :
  routeIn_loop stepLabel s a = (s', false) ->
  routeIn_loop stepLabel s (a ++ b) = routeIn_loop stepLabel s' b.
Proof.
  revert s. induction a as [|[now e] a IH]; intros s; simpl.
  - by intros [= <-].
  - destruct (routeIn_enabled s e); [|by apply IH].
    destruct (routeIn_iter stepLabel now s e) as [s1 c].
    destruct c; [by apply IH | done].
Qed.

(** X19: when the injection in flight hands back an error, [routeIn] emits
    a [TargetInErr] event for the target, leaves its loop without closing
    [stepIn] and returns zero targets and the routing-failed error, which
    names the target and the step but not the error of the injection. *)
Theorem routeIn_injection_failure (stepLabel : string)
    (evs : list (Time * routeInEvent)) (s : routeInState) (t : Target)
    (now : Time) (e : error) (emit : Emitter) :
  routeIn_loop stepLabel routeIn_init evs = (s, false) ->
  in_running s = [t] ->
  routeIn stepLabel (evs ++ [(now, InResult 0 (Some e) emit)]) =
    Some (0, Some (Errorf "routing failed while injecting target %+v into %s"
                     [ATarget t; AString stepLabel])) ∧
  in_trace
    (routeIn_loop stepLabel routeIn_init
       (evs ++ [(now, InResult 0 (Some e) emit)])).1 =
    in_trace s ++ [AEmit (mkEventData EventTargetInErr t None)] ∧
  closesStepIn
    (in_trace
       (routeIn_loop stepLabel routeIn_init
          (evs ++ [(now, InResult 0 (Some e) emit)])).1) = 0.
Proof.
  intros E Hrun.
  pose proof (routeIn_loop_inv _ _ _ _ _ routeIn_init_inv E)
    as (Herr & _ & _ & Hcl & _).
  unfold routeIn. rewrite (routeIn_loop_app _ _ _ _ _ E).
  destruct s as [op tg ing prog err run tr lg]; simpl in *. subst err run.
  unfold routeIn_iter, routeIn_inject. simpl.
  split; [done|]. split; [done|].
  rewrite closesStepIn_snoc. simpl. lia.
Qed.

(** One target arrives and its injection times out. *)
Lemma routeIn_injection_failure_witness :
  routeIn "step"
    ([(0, InRecv (Some host001))] ++
     [(1, InResult 0 (Some (ErrorString "timeout")) okEmitter)]) =
  Some (0, Some (Errorf "routing failed while injecting target %+v into %s"
                   [ATarget host001; AString "step"])).
Proof.
  exact (proj1
    (routeIn_injection_failure "step" [(0, InRecv (Some host001))] _ host001 1
       (ErrorString "timeout") okEmitter eq_refl eq_refl)).
Defined.

(** Both activities return at once and nobody takes the result. *)
Lemma route_panics_when_not_listening_witness :
  route sampleOperand (mkBundle "step") sampleTimeouts
    [(0, InRecv None)]
    [(0, OutStepOut None okEmitter calm); (1, OutStepErr None okEmitter calm)]
    (fun _ => false) (fun _ => 0) 2 =
  Some (RoutePanicked "could not send routing block result").
Proof.
  apply (proj1
    (route_panics_when_not_listening sampleOperand (mkBundle "step")
       sampleTimeouts [(0, InRecv None)]
       [(0, OutStepOut None okEmitter calm); (1, OutStepErr None okEmitter calm)]
       (fun _ => false) (fun _ => 0) 2)).
  - eexists. reflexivity.
  - eexists. reflexivity.
  - intros; reflexivity.
Defined.
